(** * Keyboard Singer: the note-advancement core, song loading and status lines

    A shallow embedding of [keyboard_singer.py].

    Conventions of the embedding.
    - Python [int] is [Z]; list indexing follows Python (negative indices count
      from the end, an index out of range raises [IndexError]); [%] raises
      [ZeroDivisionError] on a zero divisor.
    - Clock readings ([time.monotonic()]) and the gate are exact rationals
      [Q]: every finite binary64 value is a rational, and the comparison
      [now - last_trigger < gate_seconds] is taken over them.  The clock is an
      input of [handle_press]: the handler reads it once, before the lock.
    - A Python [str] is a [string] whose characters are the code points below
      256.
    - Methods of [KeyboardSinger] mutate [self] and may raise: they live in a
      state-and-exception monad [M] over the record [KeyboardSinger].
    - What [handle_press] does to the outside (starting the playback thread,
      printing the status line) is the list of [event]s it returns.
    - [mido] and [pathlib] are parameters of the song loading.
    - Presses on several threads are a step relation over a shared singer and
      its lock; each statement of the [with self.lock:] block is one step. *)

From Stdlib Require Import ZArith QArith List String Ascii Bool Lia.
From Stdlib Require Import DecimalString.
From Stdlib Require DecimalFacts DecimalPos DecimalZ.
From Stdlib Require Import Sorting.Sorted Sorting.Permutation.
Import ListNotations.

Local Open Scope Z_scope.

(** ** Python values *)

Inductive exn : Type :=
| ValueError (msg : string)
| ArgumentTypeError (msg : string)
| IndexError
| ZeroDivisionError
| OSError (msg : string).   (* with its subclasses, as [FileNotFoundError] *)

(** [l[i]] *)
Definition py_getitem {A : Type} (l : list A) (i : Z) : exn + A :=
  let n := Z.of_nat (List.length l) in
  let j := if i <? 0 then i + n else i in
  if (j <? 0) || (n <=? j) then inl IndexError
  else match nth_error l (Z.to_nat j) with
       | Some x => inr x
       | None => inl IndexError
       end.

(** [a % b] *)
Definition py_mod (a b : Z) : exn + Z :=
  if b =? 0 then inl ZeroDivisionError else inr (a mod b).

(** [len(l)] *)
Definition len {A : Type} (l : list A) : Z := Z.of_nat (List.length l).

(** [x or y] on integers *)
Definition py_or (x y : Z) : Z := if x =? 0 then y else x.

(** [x < y] on clock values *)
Definition Qltb (x y : Q) : bool := negb (Qle_bool y x).

(** [max(0.0, g)]: the first argument stays unless the second is greater *)
Definition py_max0 (g : Q) : Q := if Qltb 0 g then g else 0%Q.

(** [str(n)] for an [int] of at most 4300 decimal digits; beyond that limit
    CPython's [str] raises [ValueError].  The values printed by [handle_press]
    are a position, a length and a note; a note that [int] has read, or that
    comes from a MIDI file or a built-in song, is within the limit. *)
Definition py_str_int (n : Z) : string := NilZero.string_of_int (Z.to_int n).

(** ** Songs and the singer *)

Record Song : Type := mkSong { name : string; notes : list Z }.

Record KeyboardSinger : Type := mkSinger {
  songs : list Song;
  song_index : Z;
  note_index : Z;
  gate_seconds : Q;
  last_trigger : Q
}.

(** ** The monad of methods: state [KeyboardSinger], exceptions [exn] *)

Inductive Res (A : Type) : Type :=
| Ret (a : A) (s : KeyboardSinger)
| Raise (e : exn) (s : KeyboardSinger).
Arguments Ret {A} a s.
Arguments Raise {A} e s.

Definition M (A : Type) : Type := KeyboardSinger -> Res A.

Definition ret {A} (a : A) : M A := fun s => Ret a s.
Definition bind {A B} (m : M A) (k : A -> M B) : M B :=
  fun s => match m s with
           | Ret a s' => k a s'
           | Raise e s' => Raise e s'
           end.
Definition get : M KeyboardSinger := fun s => Ret s s.
Definition lift {A} (r : exn + A) : M A :=
  fun s => match r with inl e => Raise e s | inr a => Ret a s end.

Declare Scope py_scope.
Delimit Scope py_scope with py.
Notation "x <- m ;; k" := (bind m (fun x => k))
  (at level 61, m at next level, right associativity) : py_scope.
Notation "m ;; k" := (bind m (fun _ => k))
  (at level 61, right associativity) : py_scope.
Local Open Scope py_scope.

Definition final_state {A} (r : Res A) : KeyboardSinger :=
  match r with Ret _ s => s | Raise _ s => s end.

(** Field assignments [self.f = v] *)
Definition set_note_index (v : Z) : M unit :=
  fun s => Ret tt (mkSinger (songs s) (song_index s) v (gate_seconds s) (last_trigger s)).
Definition set_last_trigger (v : Q) : M unit :=
  fun s => Ret tt (mkSinger (songs s) (song_index s) (note_index s) (gate_seconds s) v).

(** ** [KeyboardSinger] *)

(** [KeyboardSinger.__init__] *)
Definition init (songs0 : list Song) (gate : Q) : exn + KeyboardSinger :=
  match songs0 with
  | [] => inl (ValueError "At least one song is required")
  | _ :: _ => inr (mkSinger songs0 0 0 (py_max0 gate) 0%Q)
  end.

(** [KeyboardSinger.current_song] *)
Definition current_song : M Song :=
  s <- get ;; lift (py_getitem (songs s) (song_index s)).

(** [next_note], its reads: [song = self.current_song] and
    [note = song.notes[self.note_index]] *)
Definition read_note : M (Song * Z) :=
  song <- current_song ;;
  s <- get ;;
  note <- lift (py_getitem (notes song) (note_index s)) ;;
  ret (song, note).

(** [next_note], its write:
    [self.note_index = (self.note_index + 1) % len(song.notes)] *)
Definition advance_index (song : Song) : M unit :=
  s <- get ;;
  i <- lift (py_mod (note_index s + 1) (len (notes song))) ;;
  set_note_index i.

(** [KeyboardSinger.next_note] *)
Definition next_note : M Z :=
  sn <- read_note ;;
  advance_index (fst sn) ;;
  ret (snd sn).

(** [KeyboardSinger.restart] *)
Definition restart : M unit := set_note_index 0.

(** ** The status line *)

Definition hex_digit (n : N) : ascii :=
  match n with
  | 0 => "0" | 1 => "1" | 2 => "2" | 3 => "3" | 4 => "4" | 5 => "5"
  | 6 => "6" | 7 => "7" | 8 => "8" | 9 => "9" | 10 => "a" | 11 => "b"
  | 12 => "c" | 13 => "d" | 14 => "e" | _ => "f"
  end%N%char.

(** Code points below 256 that [repr] prints as they are. *)
Definition printable (c : ascii) : bool :=
  let n := N_of_ascii c in
  ((32 <=? n) && (n <? 127) || (161 <=? n) && negb (n =? 173))%N.

Fixpoint contains (c : ascii) (s : string) : bool :=
  match s with
  | EmptyString => false
  | String d s' => Ascii.eqb c d || contains c s'
  end.

Definition repr_char (quote c : ascii) : string :=
  if Ascii.eqb c quote || Ascii.eqb c "\"%char
  then String "\"%char (String c EmptyString)
  else if Ascii.eqb c "009"%char then "\t"%string
  else if Ascii.eqb c "010"%char then "\n"%string
  else if Ascii.eqb c "013"%char then "\r"%string
  else if printable c then String c EmptyString
  else let n := N_of_ascii c in
       String "\"%char (String "x"%char
         (String (hex_digit (n / 16)) (String (hex_digit (n mod 16)) EmptyString))).

Fixpoint repr_body (quote : ascii) (s : string) : string :=
  match s with
  | EmptyString => EmptyString
  | String c s' => (repr_char quote c ++ repr_body quote s')%string
  end.

(** [repr(s)] for a [str]: single quotes, unless the text has a single quote
    and no double quote. *)
Definition py_repr (s : string) : string :=
  let quote := if contains "'"%char s && negb (contains "034"%char s)
               then "034"%char else "'"%char in
  String quote (repr_body quote s ++ String quote EmptyString)%string.

(** [f"song={song.name!r} note={note} index={current_position}/{len(song.notes)}"] *)
Definition status_line (song : Song) (note current_position : Z) : string :=
  ("song=" ++ py_repr (name song) ++ " note=" ++ py_str_int note
   ++ " index=" ++ py_str_int current_position ++ "/" ++ py_str_int (len (notes song)))%string.

(** ** [handle_press] *)

Inductive event : Type :=
| Spawn (midi_note : Z)   (* [threading.Thread(target=self.play_note_thread, args=(note,), daemon=True).start()] *)
| Print (line : string).  (* [print(..., flush=True)] *)

(** The local variables that leave the [with self.lock:] block. *)
Record locals : Type := mkLocals {
  l_note : Z;
  l_song : Song;
  l_current_position : Z
}.

(** [now - self.last_trigger < self.gate_seconds] *)
Definition gate_closed (now : Q) : M bool :=
  s <- get ;; ret (Qltb (now - last_trigger s) (gate_seconds s)).

(** [song = self.current_song] and
    [current_position = self.note_index or len(song.notes)] *)
Definition position (note : Z) : M locals :=
  song <- current_song ;;
  s <- get ;;
  ret (mkLocals note song (py_or (note_index s) (len (notes song)))).

(** The body of [with self.lock:] after the gate. *)
Definition accepted_press (now : Q) : M (option locals) :=
  set_last_trigger now ;;
  note <- next_note ;;
  l <- position note ;;
  ret (Some l).

(** The body of [with self.lock:] in [handle_press]; [None] is the early
    [return] of a debounced press. *)
Definition critical_section (now : Q) : M (option locals) :=
  closed <- gate_closed now ;;
  if closed then ret None else accepted_press now.

(** What follows the lock: the playback thread and the status line. *)
Definition dispatch (l : locals) : list event :=
  let line := status_line (l_song l) (l_note l) (l_current_position l) in
  [Spawn (l_note l); Print line].

(** [KeyboardSinger.handle_press], with [now] the value that
    [time.monotonic()] returned.  The lock is free on entry and released on
    every exit, also when the body raises. *)
Definition handle_press (now : Q) : M (list event) :=
  r <- critical_section now ;;
  match r with
  | None => ret []
  | Some l => ret (dispatch l)
  end.

(** A listener that delivers presses one after the other. *)
Fixpoint run_presses (nows : list Q) : M (list (list event)) :=
  match nows with
  | [] => ret []
  | now :: rest =>
      ev <- handle_press now ;;
      evs <- run_presses rest ;;
      ret (ev :: evs)
  end.

(** ** Invariants of the data model *)

Definition songs_ok (l : list Song) : Prop :=
  l <> [] /\ Forall (fun sg => notes sg <> []) l.

Definition inv (s : KeyboardSinger) : Prop :=
  0 <= song_index s < len (songs s) /\
  exists song, py_getitem (songs s) (song_index s) = inr song /\
               0 <= note_index s < len (notes song).

(** The gate lets every press of [nows] through when the previous accepted
    press was at [last]. *)
Fixpoint gate_open_all (gate last : Q) (nows : list Q) : Prop :=
  match nows with
  | [] => True
  | now :: rest => ~ (now - last < gate)%Q /\ gate_open_all gate now rest
  end.

(** The song of the spec's examples. *)
Definition twinkle : Song := mkSong "Twinkle" [60; 60; 67; 67].

(** The status line as the spec words it: the bare name, not its [repr]. *)
Definition spec_status_line (song : Song) (note display_position : Z) : string :=
  ("song=" ++ name song ++ " note=" ++ py_str_int note
   ++ " index=" ++ py_str_int display_position ++ "/" ++ py_str_int (len (notes song)))%string.

(** Clock readings that never go back, the first one not before [last]. *)
Fixpoint nondecreasing (last : Q) (nows : list Q) : Prop :=
  match nows with
  | [] => True
  | now :: rest => (last <= now)%Q /\ nondecreasing now rest
  end.

(** * Building the song list *)

(** ** MIDI files *)

(** A [mido] message: its type, its delta time in ticks and, for the channel
    messages that carry them, note and velocity. *)
Record Message : Type := mkMessage {
  msg_type : string;
  msg_time : Z;
  msg_note : Z;
  msg_velocity : Z
}.

Record MidiFile : Type := mkMidiFile { tracks : list (list Message) }.

(** [message.type == "note_on" and message.velocity > 0] *)
Definition playable (m : Message) : bool :=
  String.eqb (msg_type m) "note_on" && (0 <? msg_velocity m).

(** The body of [for message in track], on the pair [(ticks, notes)]. *)
Definition visit_message (st : Z * list (Z * Z)) (m : Message) : Z * list (Z * Z) :=
  let ticks := fst st + msg_time m in
  if playable m then (ticks, snd st ++ [(ticks, msg_note m)]) else (ticks, snd st).

(** The body of [for track in midi.tracks], on [notes]. *)
Definition visit_track (notes0 : list (Z * Z)) (track : list Message) : list (Z * Z) :=
  snd (fold_left visit_message track (0, notes0)).

(** [notes.sort(key=lambda item: item[0])]: ascending in the key and stable.
    Each item goes in front of the first sorted item whose key is not
    smaller. *)
Fixpoint insert_by_key (x : Z * Z) (l : list (Z * Z)) : list (Z * Z) :=
  match l with
  | [] => [x]
  | y :: l' => if fst x <=? fst y then x :: y :: l' else y :: insert_by_key x l'
  end.

Fixpoint sort_by_key (l : list (Z * Z)) : list (Z * Z) :=
  match l with
  | [] => []
  | x :: l' => insert_by_key x (sort_by_key l')
  end.

(** The order of the sort: by the tick, the first component. *)
Definition key_le (a b : Z * Z) : Prop := fst a <= fst b.

(** [load_midi_notes], on the decoded file. *)
Definition load_midi_notes (midi : MidiFile) : list Z :=
  let notes0 := fold_left visit_track (tracks midi) [] in
  map snd (sort_by_key notes0).

(** The same in the words of the claim: every message of a track with its
    absolute time, the sum of the delta times up to it. *)
Fixpoint absolute_times (start : Z) (track : list Message) : list (Z * Message) :=
  match track with
  | [] => []
  | m :: rest => (start + msg_time m, m) :: absolute_times (start + msg_time m) rest
  end.

(** The note-on messages of positive velocity with their absolute times, in
    the order the tracks are gone through. *)
Definition timed_notes (midi : MidiFile) : list (Z * Z) :=
  flat_map (fun track =>
              map (fun tm => (fst tm, msg_note (snd tm)))
                  (filter (fun tm => playable (snd tm)) (absolute_times 0 track)))
           (tracks midi).

(** In the words of the claim: a [note_on] message whose velocity is strictly
    greater than 0. *)
Definition sounding (m : Message) : Prop :=
  msg_type m = "note_on"%string /\ 0 < msg_velocity m.

Definition is_sounding (m : Message) : bool :=
  if string_dec (msg_type m) "note_on" then negb (msg_velocity m <=? 0) else false.

(** The ticks gone by at the end of a run of messages: the sum of their delta
    times. *)
Definition elapsed (l : list Message) : Z :=
  fold_right (fun m acc => msg_time m + acc) 0 l.

(** The sounding messages of all tracks, each note with its absolute tick, in
    the order the tracks are gone through. *)
Definition sounding_items (midi : MidiFile) : list (Z * Z) :=
  flat_map (fun track =>
              map (fun tm => (fst tm, msg_note (snd tm)))
                  (filter (fun tm => is_sounding (snd tm)) (absolute_times 0 track)))
           (tracks midi).

(** The items of a list with the key [t]. *)
Definition at_tick (t : Z) (l : list (Z * Z)) : list (Z * Z) :=
  filter (fun item => fst item =? t) l.

(** ** Inline songs *)

(** White space of [str.strip()] among the code points below 256. *)
Definition is_space (c : ascii) : bool :=
  let n := N_of_ascii c in
  ((9 <=? n) && (n <=? 13) || (28 <=? n) && (n <=? 32) || (n =? 133) || (n =? 160))%N.

Fixpoint lstrip (s : string) : string :=
  match s with
  | EmptyString => EmptyString
  | String c s' => if is_space c then lstrip s' else s
  end.

Fixpoint rstrip (s : string) : string :=
  match s with
  | EmptyString => EmptyString
  | String c s' =>
      match rstrip s' with
      | EmptyString => if is_space c then EmptyString else String c EmptyString
      | r => String c r
      end
  end.

(** [s.strip()] *)
Definition py_strip (s : string) : string := rstrip (lstrip s).

(** [s.partition(sep)] for a one-character separator *)
Fixpoint py_partition (sep : ascii) (s : string) : string * string * string :=
  match s with
  | EmptyString => (EmptyString, EmptyString, EmptyString)
  | String c s' =>
      if Ascii.eqb c sep then (EmptyString, String sep EmptyString, s')
      else let '(h, m, t) := py_partition sep s' in (String c h, m, t)
  end.

(** [s.split(sep)] for a one-character separator *)
Fixpoint py_split (sep : ascii) (s : string) : list string :=
  match s with
  | EmptyString => [EmptyString]
  | String c s' =>
      if Ascii.eqb c sep then EmptyString :: py_split sep s'
      else match py_split sep s' with
           | [] => [String c EmptyString]
           | h :: t => String c h :: t
           end
  end.

Definition digit_value (c : ascii) : option Z :=
  let n := N_of_ascii c in
  if ((48 <=? n) && (n <=? 57))%N then Some (Z.of_N (n - 48)) else None.

(** Decimal digits, single underscores allowed between two digits. *)
Fixpoint int_digits (s : string) (acc : Z) (after_digit : bool) : option Z :=
  match s with
  | EmptyString => if after_digit then Some acc else None
  | String c s' =>
      match digit_value c with
      | Some d => int_digits s' (10 * acc + d) true
      | None => if Ascii.eqb c "_"%char && after_digit
                then int_digits s' acc false else None
      end
  end.

(** [sys.get_int_max_str_digits()], which the program leaves at its default. *)
Definition int_max_str_digits : Z := 4300.

Fixpoint count_digits (s : string) : nat :=
  match s with
  | EmptyString => O
  | String c s' =>
      match digit_value c with
      | Some _ => S (count_digits s')
      | None => count_digits s'
      end
  end.

(** A decimal literal without sign, of no more digits than the limit. *)
Definition int_literal (s : string) : option Z :=
  match int_digits s 0 false with
  | Some v =>
      if Z.of_nat (count_digits s) <=? int_max_str_digits then Some v else None
  | None => None
  end.

(** [int(s)] for a text without white space at its ends, as [item.strip()]
    is; [None] is [ValueError]: the text is no decimal literal, or it has more
    digits than [int_max_str_digits]. *)
Definition py_int (s : string) : option Z :=
  match s with
  | String "+"%char s' => int_literal s'
  | String "-"%char s' => option_map Z.opp (int_literal s')
  | _ => int_literal s
  end.

(** The digits at the head of a text, single underscores between them: how
    many they are, or [None] where two underscores meet or one ends the run. *)
Fixpoint leading_digits (s : string) (after_underscore : bool) (n : nat) : option nat :=
  match s with
  | EmptyString => if after_underscore then None else Some n
  | String c s' =>
      match digit_value c with
      | Some _ => leading_digits s' false (S n)
      | None =>
          if Ascii.eqb c "_"%char
          then if after_underscore then None else leading_digits s' true n
          else if after_underscore then None else Some n
      end
  end.

(** The message of the [ValueError] of [int(s)]: the digit limit is checked
    on the digits at the head, before what follows them is looked at; the
    text is shown by [%.200R], its [repr] cut at 200 characters. *)
Definition int_error_message (s : string) : string :=
  let invalid := ("invalid literal for int() with base 10: "
                  ++ String.substring 0 200 (py_repr s))%string in
  let body := match s with
              | String "+"%char s' => s'
              | String "-"%char s' => s'
              | _ => s
              end in
  match body with
  | String "_"%char _ => invalid
  | _ =>
      match leading_digits body false O with
      | Some n =>
          if int_max_str_digits <? Z.of_nat n
          then ("Exceeds the limit (4300 digits) for integer string conversion: "
                ++ "value has " ++ py_str_int (Z.of_nat n)
                ++ " digits; use sys.set_int_max_str_digits() to increase the limit")%string
          else invalid
      | None => invalid
      end
  end.

Definition is_empty (s : string) : bool :=
  match s with EmptyString => true | _ => false end.

(** [[int(item.strip()) for item in items if item.strip()]] *)
Fixpoint parse_notes (items : list string) : exn + list Z :=
  match items with
  | [] => inr []
  | item :: rest =>
      if is_empty (py_strip item) then parse_notes rest
      else match py_int (py_strip item) with
           | None => inl (ValueError (int_error_message (py_strip item)))
           | Some n => match parse_notes rest with
                       | inl e => inl e
                       | inr ns => inr (n :: ns)
                       end
           end
  end.

(** [parse_builtin_song] *)
Definition parse_builtin_song (raw : string) : exn + Song :=
  let '(name0, _, body) := py_partition ":" raw in
  if is_empty body
  then inl (ArgumentTypeError "Builtin song must look like name:60,62,64")
  else match parse_notes (py_split "," body) with
       | inl (ValueError msg) => inl (ArgumentTypeError ("Invalid note list: " ++ msg))
       | inl e => inl e
       | inr [] => inl (ArgumentTypeError "Song needs at least one MIDI note")
       | inr ns => inr (mkSong (if is_empty (py_strip name0) then "custom"
                                else py_strip name0) ns)
       end.

(** [build_default_songs] *)
Definition build_default_songs : list Song :=
  [ mkSong "Twinkle Fragment" [60; 60; 67; 67; 69; 69; 67; 65; 65; 64; 64; 62; 62; 60];
    mkSong "Ascending C Major" [60; 62; 64; 65; 67; 69; 71; 72] ].

(** The [--song] arguments, each through [type=parse_builtin_song], appended
    in the order given; the first text that does not parse ends the run. *)
Fixpoint parse_song_args (raws : list string) : exn + list Song :=
  match raws with
  | [] => inr []
  | raw :: rest =>
      match parse_builtin_song raw with
      | inl e => inl e
      | inr song => match parse_song_args rest with
                    | inl e => inl e
                    | inr l => inr (song :: l)
                    end
      end
  end.

Section SongSet.

(** The libraries behind [collect_songs]: [mido.MidiFile(path)], which
    decodes a file or raises, and [pathlib]'s [Path(p).name] and
    [str(Path(p))]. *)
Variable mido_MidiFile : string -> exn + MidiFile.
Variable Path_name : string -> string.
Variable Path_str : string -> string.

(** The loop [for midi_file in midi_files] of [collect_songs], on [songs]. *)
Fixpoint collect_midi (midi_files : list string) (songs0 : list Song) : exn + list Song :=
  match midi_files with
  | [] => inr songs0
  | midi_file :: rest =>
      match mido_MidiFile midi_file with
      | inl e => inl e
      | inr midi =>
          match load_midi_notes midi with
          | [] => inl (ValueError ("No playable notes in MIDI file: " ++ Path_str midi_file))
          | ns => collect_midi rest
                    (songs0 ++ [mkSong ("MIDI:" ++ Path_name midi_file) ns])
          end
      end
  end.

(** [collect_songs] *)
Definition collect_songs (midi_files : list string) (extra_songs : list Song)
  : exn + list Song :=
  collect_midi midi_files (build_default_songs ++ extra_songs).

(** [main] up to the singer: the arguments are parsed, then the songs are
    collected. *)
Definition build_song_set (song_args midi_args : list string) : exn + list Song :=
  match parse_song_args song_args with
  | inl e => inl e
  | inr extra_songs => collect_songs midi_args extra_songs
  end.

(** A file among [midi_args] decodes and has no playable note. *)
Definition has_silent_file (midi_args : list string) : Prop :=
  exists path midi, In path midi_args /\ mido_MidiFile path = inr midi /\
                    load_midi_notes midi = [].

End SongSet.

(** The body of an inline song text, after the first colon. *)
Definition body_of (raw : string) : string := snd (py_partition ":" raw).

(** The texts between the commas that are not blank, stripped. *)
Definition note_items (raw : string) : list string :=
  filter (fun item => negb (is_empty item)) (map py_strip (py_split "," (body_of raw))).

(** An inline song text is malformed: no note list, a note that [int] does
    not take (no integer, or one of too many digits), or an empty note list. *)
Definition malformed (raw : string) : Prop :=
  body_of raw = EmptyString \/
  (exists item, In item (note_items raw) /\ py_int item = None) \/
  note_items raw = [].

(** The name part of an inline song text, before the first colon. *)
Definition name_of (raw : string) : string := fst (fst (py_partition ":" raw)).

(** The song that an inline text stands for: its name stripped, [custom] for
    a blank one, and the integers of its note items. *)
Definition parsed_as (raw : string) (song : Song) : Prop :=
  name song = (if is_empty (py_strip (name_of raw)) then "custom"%string
               else py_strip (name_of raw)) /\
  Forall2 (fun item n => py_int item = Some n) (note_items raw) (notes song).

(** A MIDI argument that stops the start-up: the file does not decode, or it
    decodes to no playable note. *)
Definition midi_fails (mido_MidiFile : string -> exn + MidiFile) (path : string) : Prop :=
  (exists e, mido_MidiFile path = inl e) \/
  (exists midi, mido_MidiFile path = inr midi /\ load_midi_notes midi = []).

(** A decoded file for the examples: two tracks. *)
Definition demo_midi : MidiFile :=
  mkMidiFile
    [ [ mkMessage "note_on" 0 60 64; mkMessage "note_off" 10 60 0;
        mkMessage "note_on" 0 62 64; mkMessage "note_on" 10 62 0 ];
      [ mkMessage "track_name" 0 0 0; mkMessage "note_on" 10 48 90;
        mkMessage "note_on" 5 50 90 ] ].

(** A track with one sounding note-on, a note-on of velocity 0 and a message
    of another type that carries a velocity. *)
Definition filter_midi : MidiFile :=
  mkMidiFile [ [ mkMessage "note_on" 0 60 64; mkMessage "note_on" 5 61 0;
                 mkMessage "note_off" 5 63 64 ] ].

(** A file whose note-on messages all have velocity 0. *)
Definition silent_midi : MidiFile :=
  mkMidiFile [ [ mkMessage "note_on" 0 60 0; mkMessage "note_on" 10 62 0 ] ].

(** A file system for the examples: [silent.mid] decodes to [silent_midi],
    every other path to [demo_midi]. *)
Definition demo_files (path : string) : exn + MidiFile :=
  if String.eqb path "silent.mid" then inr silent_midi else inr demo_midi.

(** A file system in which [missing.mid] does not exist. *)
Definition missing_files (path : string) : exn + MidiFile :=
  if String.eqb path "missing.mid"
  then inl (OSError "[Errno 2] No such file or directory: 'missing.mid'")
  else demo_files path.

(** * Presses on several threads *)

(** Where a thread stands in [handle_press], with the local variables it holds. *)
Inductive pc : Type :=
| AtClock                             (* [now = time.monotonic()] *)
| AtLock (now : Q)                    (* [with self.lock:], waiting to enter *)
| AtGate (now : Q)                    (* [if now - self.last_trigger < self.gate_seconds: return] *)
| AtSetLast (now : Q)                 (* [self.last_trigger = now] *)
| AtReadNote                          (* [next_note]: the reads *)
| AtAdvance (song : Song) (note : Z)  (* [next_note]: the write of [note_index] *)
| AtPosition (note : Z)               (* [song = ...; current_position = ...] *)
| AtUnlock (r : option locals)        (* the end of the [with] block *)
| AtSpawn (l : locals)                (* [threading.Thread(...).start()] *)
| AtPrint (l : locals)                (* [print(...)] *)
| Returned
| Raised (e : exn).

(** Inside the [with] block. *)
Definition critical (p : pc) : bool :=
  match p with
  | AtGate _ | AtSetLast _ | AtReadNote | AtAdvance _ _ | AtPosition _ | AtUnlock _ => true
  | _ => false
  end.

(** The singer shared by the threads, its lock with the thread that holds it,
    the monotonic clock, the threads, what went out so far, and the clock
    readings of the presses in the order in which they took the lock. *)
Record world : Type := mkWorld {
  w_singer : KeyboardSinger;
  w_lock : option nat;
  w_clock : Q;
  w_threads : list pc;
  w_out : list event;
  w_entered : list Q
}.

Fixpoint set_nth {A : Type} (n : nat) (x : A) (l : list A) : list A :=
  match l, n with
  | [], _ => []
  | _ :: l', O => x :: l'
  | y :: l', S n' => y :: set_nth n' x l'
  end.

(** Thread [tid] moves on to [p]. *)
Definition goto (w : world) (tid : nat) (p : pc) : world :=
  mkWorld (w_singer w) (w_lock w) (w_clock w) (set_nth tid p (w_threads w))
          (w_out w) (w_entered w).

Definition with_singer (w : world) (s : KeyboardSinger) : world :=
  mkWorld s (w_lock w) (w_clock w) (w_threads w) (w_out w) (w_entered w).

Definition with_lock (w : world) (l : option nat) : world :=
  mkWorld (w_singer w) l (w_clock w) (w_threads w) (w_out w) (w_entered w).

Definition emit (w : world) (e : event) : world :=
  mkWorld (w_singer w) (w_lock w) (w_clock w) (w_threads w)
          (w_out w ++ [e]) (w_entered w).

(** Thread [tid] runs one statement [m] of the [with] block on the shared
    singer and goes on at [k]; an exception leaves the block, which releases
    the lock. *)
Definition exec {A : Type} (m : M A) (k : A -> pc) (w : world) (tid : nat) : world :=
  match m (w_singer w) with
  | Ret a s' => goto (with_singer w s') tid (k a)
  | Raise e s' => goto (with_lock (with_singer w s') None) tid (Raised e)
  end.

(** One step of thread [tid]; [t] is what the clock shows if the step reads
    it.  [None]: the thread cannot move (it waits for the lock, it is done,
    or the clock would go back). *)
Definition step (w : world) (tid : nat) (t : Q) : option world :=
  match nth_error (w_threads w) tid with
  | None => None
  | Some AtClock =>
      if Qle_bool (w_clock w) t
      then Some (goto (mkWorld (w_singer w) (w_lock w) t (w_threads w)
                               (w_out w) (w_entered w)) tid (AtLock t))
      else None
  | Some (AtLock now) =>
      match w_lock w with
      | Some _ => None
      | None => Some (goto (mkWorld (w_singer w) (Some tid) (w_clock w) (w_threads w)
                                    (w_out w) (w_entered w ++ [now])) tid (AtGate now))
      end
  | Some (AtGate now) =>
      Some (exec (gate_closed now)
                 (fun closed => if closed then AtUnlock None else AtSetLast now) w tid)
  | Some (AtSetLast now) =>
      Some (exec (set_last_trigger now) (fun _ => AtReadNote) w tid)
  | Some AtReadNote =>
      Some (exec read_note (fun sn => AtAdvance (fst sn) (snd sn)) w tid)
  | Some (AtAdvance song note) =>
      Some (exec (advance_index song) (fun _ => AtPosition note) w tid)
  | Some (AtPosition note) =>
      Some (exec (position note) (fun l => AtUnlock (Some l)) w tid)
  | Some (AtUnlock r) =>
      Some (goto (with_lock w None) tid
                 (match r with None => Returned | Some l => AtSpawn l end))
  | Some (AtSpawn l) =>
      Some (goto (emit w (Spawn (l_note l))) tid (AtPrint l))
  | Some (AtPrint l) =>
      Some (goto (emit w (Print (status_line (l_song l) (l_note l)
                                             (l_current_position l)))) tid Returned)
  | Some Returned => None
  | Some (Raised _) => None
  end.

(** A schedule: which thread moves next, and the clock at that moment. *)
Fixpoint run_schedule (sched : list (nat * Q)) (w : world) : option world :=
  match sched with
  | [] => Some w
  | (tid, t) :: rest =>
      match step w tid t with
      | None => None
      | Some w' => run_schedule rest w'
      end
  end.

(** [n] presses fired together on the singer [s]. *)
Definition start_world (s : KeyboardSinger) (clock0 : Q) (n : nat) : world :=
  mkWorld s None clock0 (repeat AtClock n) [] [].

Definition all_returned (w : world) : Prop :=
  Forall (fun p => p = Returned) (w_threads w).

(** What is left of the [with] block from [p] on. *)
Definition rest_of_block (p : pc) : M (option locals) :=
  match p with
  | AtGate now => critical_section now
  | AtSetLast now => accepted_press now
  | AtReadNote => note <- next_note ;; l <- position note ;; ret (Some l)
  | AtAdvance song note => advance_index song ;; l <- position note ;; ret (Some l)
  | AtPosition note => l <- position note ;; ret (Some l)
  | AtUnlock r => ret r
  | _ => ret None
  end.

(** What a press sends out after the block, by the block's result. *)
Definition results_of (r : option locals) : list event :=
  match r with
  | None => []
  | Some l => dispatch l
  end.

(** What a thread has yet to send out once it has left the block. *)
Definition pending (p : pc) : list event :=
  match p with
  | AtSpawn l => dispatch l
  | AtPrint l => [Print (status_line (l_song l) (l_note l) (l_current_position l))]
  | _ => []
  end.

(** One mark for a thread that has taken the lock. *)
Definition entered_mark (p : pc) : list unit :=
  match p with
  | AtClock | AtLock _ => []
  | _ => [tt]
  end.

(** What holds of every world that [n] presses on [s0] can reach. *)
Record reachable_inv (s0 : KeyboardSinger) (n : nat) (w : world) : Prop := {
  ri_threads : List.length (w_threads w) = n;
  ri_marks : List.length (w_entered w)
             = List.length (flat_map entered_mark (w_threads w));
  ri_critical : forall tid p, nth_error (w_threads w) tid = Some p ->
                              (critical p = true <-> w_lock w = Some tid);
  ri_no_raise : forall tid e, nth_error (w_threads w) tid <> Some (Raised e);
  ri_serial : exists served evs sp,
      run_presses served s0 = Ret evs sp /\ inv sp /\
      Permutation (w_out w ++ flat_map pending (w_threads w)) (List.concat evs) /\
      match w_lock w with
      | None => w_entered w = served /\ w_singer w = sp
      | Some h => exists now p r s',
          w_entered w = served ++ [now] /\
          nth_error (w_threads w) h = Some p /\
          critical_section now sp = Ret r s' /\
          rest_of_block p (w_singer w) = Ret r s'
      end
}.

(** Two presses with a gate of zero; the second thread reads the clock later
    and takes the lock first. *)
Definition overtaking_schedule : list (nat * Q) :=
  [ (0%nat, 1%Q); (1%nat, 2%Q);
    (1%nat, 2%Q); (1%nat, 2%Q); (1%nat, 2%Q); (1%nat, 2%Q); (1%nat, 2%Q);
    (1%nat, 2%Q); (1%nat, 2%Q); (1%nat, 2%Q); (1%nat, 2%Q);
    (0%nat, 2%Q); (0%nat, 2%Q); (0%nat, 2%Q) ].

(** The presses of a serial run that were accepted. *)
Definition accepted_count (evs : list (list event)) : nat :=
  List.length (filter (fun ev => match ev with [] => false | _ => true end) evs).

(** The notes handed to playback threads, in the order of the events. *)
Fixpoint spawned (out : list event) : list Z :=
  match out with
  | [] => []
  | Spawn note :: rest => note :: spawned rest
  | Print _ :: rest => spawned rest
  end.

(** [k] notes of [song] from position [i] on, going round. *)
Fixpoint cycle_notes (song : Song) (i : Z) (k : nat) : list Z :=
  match k with
  | O => []
  | S k' =>
      match py_getitem (notes song) i with
      | inr note => note :: cycle_notes song ((i + 1) mod len (notes song)) k'
      | inl _ => []
      end
  end.

(** The singer of the examples with a gate of zero, and the world in which
    [overtaking_schedule] ends. *)
Definition ungated : KeyboardSinger := mkSinger [twinkle] 0 0 0 0.

Definition overtaken_world : world :=
  mkWorld (mkSinger [twinkle] 0 1 0 2) None 2 [Returned; Returned]
          (dispatch (mkLocals 60 twinkle 1)) [2%Q; 1%Q].

(** * Further definitions *)

(** The state after [self.last_trigger = now] alone. *)
Definition triggered (s : KeyboardSinger) (now : Q) : KeyboardSinger :=
  mkSinger (songs s) (song_index s) (note_index s) (gate_seconds s) now.

(** The state after [self.note_index = 0]. *)
Definition rewound (s : KeyboardSinger) : KeyboardSinger :=
  mkSinger (songs s) (song_index s) 0 (gate_seconds s) (last_trigger s).

(** The clock readings of the presses of a serial run that sent something
    out. *)
Fixpoint accepted_times (nows : list Q) (evs : list (list event)) : list Q :=
  match nows, evs with
  | now :: nows', ev :: evs' =>
      match ev with
      | [] => accepted_times nows' evs'
      | _ :: _ => now :: accepted_times nows' evs'
      end
  | _, _ => []
  end.

(** The last of a list of clock readings, [last0] for none. *)
Fixpoint last_time (last0 : Q) (ts : list Q) : Q :=
  match ts with
  | [] => last0
  | t :: ts' => last_time t ts'
  end.

(** Every character of a text passes [P]. *)
Fixpoint string_forall (P : ascii -> bool) (s : string) : bool :=
  match s with
  | EmptyString => true
  | String c s' => P c && string_forall P s'
  end.

(** A character that [repr] leaves as it is inside single quotes. *)
Definition plain_char (c : ascii) : bool :=
  printable c && negb (Ascii.eqb c "'"%char) && negb (Ascii.eqb c "\"%char).

(** A character of the decimal form of an integer. *)
Definition decimal_char (c : ascii) : bool :=
  match digit_value c with Some _ => true | None => Ascii.eqb c "-"%char end.

(** The value of a run of decimal digits read after [acc]. *)
Fixpoint uint_value (d : Decimal.uint) (acc : Z) : Z :=
  match d with
  | Decimal.Nil => acc
  | Decimal.D0 d' => uint_value d' (10 * acc + 0)
  | Decimal.D1 d' => uint_value d' (10 * acc + 1)
  | Decimal.D2 d' => uint_value d' (10 * acc + 2)
  | Decimal.D3 d' => uint_value d' (10 * acc + 3)
  | Decimal.D4 d' => uint_value d' (10 * acc + 4)
  | Decimal.D5 d' => uint_value d' (10 * acc + 5)
  | Decimal.D6 d' => uint_value d' (10 * acc + 6)
  | Decimal.D7 d' => uint_value d' (10 * acc + 7)
  | Decimal.D8 d' => uint_value d' (10 * acc + 8)
  | Decimal.D9 d' => uint_value d' (10 * acc + 9)
  end.

(** An integer of at most [int_max_str_digits] decimal digits: [str] and [int]
    take it without raising. *)
Definition within_digit_limit (n : Z) : Prop := Z.abs n < 10 ^ int_max_str_digits.

(** An inline song text for a name and its notes: [name:n1,n2,...], that is
    [name + ":" + ",".join(str(n) for n in notes)]. *)
Definition format_song (nm : string) (ns : list Z) : string :=
  (nm ++ ":" ++ String.concat "," (map py_str_int ns))%string.

(** The song that [collect_songs] makes of a MIDI file. *)
Definition midi_song (Path_name : string -> string) (path : string) (midi : MidiFile)
  : Song :=
  mkSong ("MIDI:" ++ Path_name path) (load_midi_notes midi).

(** What makes [collect_songs] stop at a file: it does not decode, or it has
    no playable note. *)
Definition midi_failure (mido_MidiFile : string -> exn + MidiFile)
    (Path_str : string -> string) (path : string) : option exn :=
  match mido_MidiFile path with
  | inl e => Some e
  | inr midi =>
      match load_midi_notes midi with
      | [] => Some (ValueError ("No playable notes in MIDI file: " ++ Path_str path))
      | _ :: _ => None
      end
  end.



(** The playable notes of one track with their ticks. *)
Definition track_items (start : Z) (track : list Message) : list (Z * Z) :=
  map (fun tm => (fst tm, msg_note (snd tm)))
      (filter (fun tm => playable (snd tm)) (absolute_times start track)).

(** A thread that has left [handle_press]. *)
Definition finished (p : pc) : bool :=
  match p with
  | Returned | Raised _ => true
  | _ => false
  end.

(** The most steps a thread at [p] can still take. *)
Definition steps_left (p : pc) : nat :=
  match p with
  | AtClock => 10
  | AtLock _ => 9
  | AtGate _ => 8
  | AtSetLast _ => 7
  | AtReadNote => 6
  | AtAdvance _ _ => 5
  | AtPosition _ => 4
  | AtUnlock _ => 3
  | AtSpawn _ => 2
  | AtPrint _ => 1
  | Returned => 0
  | Raised _ => 0
  end.

Definition total_left (ths : list pc) : nat := list_sum (map steps_left ths).

(** The lock is held by the one thread inside the [with] block, and by no
    thread when none is inside. *)
Definition lock_inv (w : world) : Prop :=
  (forall tid p, nth_error (w_threads w) tid = Some p ->
                 (critical p = true <-> w_lock w = Some tid)) /\
  (forall h, w_lock w = Some h -> exists p, nth_error (w_threads w) h = Some p).

(** How a step moves the thread that takes it and the lock: it stays outside
    the block, enters it, stays inside, or leaves it. *)
Inductive lock_move (tid : nat) (p0 p' : pc) (lock0 lock' : option nat) : Prop :=
| StayOut : critical p0 = false -> critical p' = false -> lock' = lock0 ->
            lock_move tid p0 p' lock0 lock'
| Enter : critical p0 = false -> critical p' = true -> lock0 = None ->
          lock' = Some tid -> lock_move tid p0 p' lock0 lock'
| StayIn : critical p0 = true -> critical p' = true -> lock' = lock0 ->
           lock_move tid p0 p' lock0 lock'
| Leave : critical p0 = true -> critical p' = false -> lock' = None ->
          lock_move tid p0 p' lock0 lock'.

(** Two presses on their way: the second thread is at the gate, the first
    waits for the lock. *)
Definition midway_schedule : list (nat * Q) :=
  [ (0%nat, 1%Q); (1%nat, 2%Q); (1%nat, 2%Q) ].

Definition midway_world : world :=
  mkWorld ungated (Some 1%nat) 2 [AtLock 1; AtGate 2] [] [2%Q].

(** * Properties of the core *)

(** ** Python values *)

Lemma Qltb_lt (x y : Q) : Qltb x y = true <-> (x < y)%Q.
Proof.
  unfold Qltb. rewrite negb_true_iff. split.
  - intros H. apply Qnot_le_lt. intros Hle.
    apply Qle_bool_iff in Hle. congruence.
  - intros H. destruct (Qle_bool y x) eqn:E; [|reflexivity].
    apply Qle_bool_iff in E. exfalso. exact (Qlt_not_le _ _ H E).
Qed.

Lemma Qltb_ge (x y : Q) : Qltb x y = false <-> ~ (x < y)%Q.
Proof.
  rewrite <- Qltb_lt. destruct (Qltb x y); split; congruence.
Qed.

Lemma py_max0_nonpos (g : Q) : (g <= 0)%Q -> py_max0 g = 0%Q.
Proof.
  intros H. unfold py_max0. destruct (Qltb 0 g) eqn:E; [|reflexivity].
  apply Qltb_lt in E. exfalso. exact (Qlt_not_le _ _ E H).
Qed.

Lemma py_max0_nonneg (g : Q) : (0 <= g)%Q -> (py_max0 g == g)%Q.
Proof.
  intros H. unfold py_max0. destruct (Qltb 0 g) eqn:E; [reflexivity|].
  apply Qltb_ge in E. apply Qnot_lt_le in E. apply Qle_antisym; assumption.
Qed.

Lemma py_getitem_in_range {A} (l : list A) (i : Z) :
  0 <= i < len l -> exists x, py_getitem l i = inr x /\ nth_error l (Z.to_nat i) = Some x.
Proof.
  unfold len, py_getitem. intros H. cbv zeta.
  rewrite (proj2 (Z.ltb_ge i 0)) by lia. cbv iota.
  rewrite (proj2 (Z.ltb_ge i 0)) by lia.
  rewrite (proj2 (Z.leb_gt (Z.of_nat (List.length l)) i)) by lia. cbn.
  destruct (nth_error l (Z.to_nat i)) as [x|] eqn:E4.
  - exists x. split; reflexivity.
  - apply nth_error_None in E4. lia.
Qed.

Lemma py_getitem_head {A} (x : A) (l : list A) : py_getitem (x :: l) 0 = inr x.
Proof.
  unfold py_getitem. cbv zeta. cbn [List.length]. rewrite Z.ltb_irrefl.
  destruct (Z.leb_spec (Z.of_nat (S (List.length l))) 0); [lia|reflexivity].
Qed.

Lemma len_pos {A} (l : list A) : l <> [] -> 0 < len l.
Proof. destruct l; [congruence|]. unfold len. cbn [List.length]. lia. Qed.

Lemma py_or_wrap (i L : Z) :
  0 <= i < L -> py_or ((i + 1) mod L) L = i + 1.
Proof.
  intros H. unfold py_or.
  destruct (Z.eq_dec (i + 1) L) as [->|Hne].
  - rewrite Z.mod_same by lia. reflexivity.
  - rewrite Z.mod_small by lia.
    destruct (Z.eqb_spec (i + 1) 0); [lia|reflexivity].
Qed.

(** ** One press *)

Ltac run_monad :=
  unfold handle_press, critical_section, accepted_press, gate_closed, position,
    next_note, read_note, advance_index, current_song, restart,
    set_last_trigger, set_note_index, bind, get, ret, lift; cbn.

(** The state that an accepted press leaves. *)
Definition advanced (s : KeyboardSinger) (L : Z) (now : Q) : KeyboardSinger :=
  mkSinger (songs s) (song_index s) ((note_index s + 1) mod L) (gate_seconds s) now.

Lemma critical_section_closed (now : Q) (s : KeyboardSinger) :
  Qltb (now - last_trigger s) (gate_seconds s) = true ->
  critical_section now s = Ret None s.
Proof. intros H. run_monad. rewrite H. reflexivity. Qed.

Lemma critical_section_open (now : Q) (s : KeyboardSinger) (song : Song) :
  py_getitem (songs s) (song_index s) = inr song ->
  0 <= note_index s < len (notes song) ->
  Qltb (now - last_trigger s) (gate_seconds s) = false ->
  exists n, py_getitem (notes song) (note_index s) = inr n /\
    critical_section now s
    = Ret (Some (mkLocals n song (note_index s + 1)))
          (advanced s (len (notes song)) now).
Proof.
  intros Hsong Hi Hgate.
  destruct (py_getitem_in_range _ _ Hi) as [n [Hn _]].
  exists n. split; [exact Hn|].
  run_monad. rewrite Hgate. cbn. rewrite Hsong. cbn. rewrite Hn. cbn.
  unfold py_mod. destruct (Z.eqb_spec (len (notes song)) 0); [lia|]. cbn.
  rewrite Hsong. cbn. rewrite py_or_wrap by lia. reflexivity.
Qed.

Lemma handle_press_open (now : Q) (s : KeyboardSinger) (song : Song) :
  py_getitem (songs s) (song_index s) = inr song ->
  0 <= note_index s < len (notes song) ->
  Qltb (now - last_trigger s) (gate_seconds s) = false ->
  exists n, py_getitem (notes song) (note_index s) = inr n /\
    handle_press now s
    = Ret [Spawn n; Print (status_line song n (note_index s + 1))]
          (advanced s (len (notes song)) now).
Proof.
  intros Hsong Hi Hgate.
  destruct (critical_section_open now s song Hsong Hi Hgate) as [n [Hn Hc]].
  exists n. split; [exact Hn|].
  unfold handle_press, bind. rewrite Hc. reflexivity.
Qed.

Lemma advanced_inv (s : KeyboardSinger) (song : Song) (now : Q) :
  py_getitem (songs s) (song_index s) = inr song ->
  0 <= song_index s < len (songs s) ->
  0 < len (notes song) ->
  inv (advanced s (len (notes song)) now).
Proof.
  intros Hsong Hsi HL. split; cbn; [exact Hsi|].
  exists song. split; [exact Hsong|]. apply Z.mod_pos_bound. exact HL.
Qed.

Lemma handle_press_closed (now : Q) (s : KeyboardSinger) :
  Qltb (now - last_trigger s) (gate_seconds s) = true ->
  handle_press now s = Ret [] s.
Proof.
  intros H. unfold handle_press, bind.
  rewrite (critical_section_closed now s H). reflexivity.
Qed.

Lemma py_getitem_In {A} (l : list A) (i : Z) (x : A) :
  py_getitem l i = inr x -> In x l.
Proof.
  unfold py_getitem. cbv zeta.
  destruct (_ || _); [discriminate|].
  destruct (nth_error l _) eqn:E; [|discriminate].
  intros H. injection H as <-. eapply nth_error_In. exact E.
Qed.

Lemma current_notes_nonempty (s : KeyboardSinger) (song : Song) :
  songs_ok (songs s) -> py_getitem (songs s) (song_index s) = inr song ->
  0 < len (notes song).
Proof.
  intros [_ Hall] Hsong. apply len_pos.
  rewrite Forall_forall in Hall. apply Hall.
  eapply py_getitem_In. exact Hsong.
Qed.

(** ** Runs of accepted presses *)




(** ** The gate *)

(** C2: a press with [now - last_trigger < gate_seconds] gives no result and
    changes nothing: song index, note index and last trigger time stay, and
    neither a note nor a status line goes out. *)
Theorem debounced_press_is_noop (s : KeyboardSinger) (now : Q) :
  (now - last_trigger s < gate_seconds s)%Q ->
  critical_section now s = Ret None s /\ handle_press now s = Ret [] s.
Proof.
  intros H. apply Qltb_lt in H.
  pose proof (critical_section_closed now s H) as Hc.
  split; [exact Hc|]. unfold handle_press, bind. rewrite Hc. reflexivity.
Qed.

Lemma debounced_press_is_noop_witness :
  let s := mkSinger [twinkle] 0 2 (4 # 10) 10 in
  critical_section (102 # 10) s = Ret None s /\ handle_press (102 # 10) s = Ret [] s.
Proof.
  apply (debounced_press_is_noop (mkSinger [twinkle] 0 2 (4 # 10) 10) (102 # 10)).
  reflexivity.
Defined.

(** C3: a singer built with a gate of zero, or with a negative gate (stored as
    zero), accepts every press whose clock reading is not before the last
    trigger time: the press plays the note under the cursor and advances. *)
Theorem zero_gate_accepts (songs0 : list Song) (gate : Q) (s0 s : KeyboardSinger) (now : Q) :
  init songs0 gate = inr s0 ->
  (gate <= 0)%Q ->
  gate_seconds s = gate_seconds s0 ->
  inv s ->
  (last_trigger s <= now)%Q ->
  gate_seconds s0 = 0%Q /\
  exists song n,
    py_getitem (songs s) (song_index s) = inr song /\
    py_getitem (notes song) (note_index s) = inr n /\
    critical_section now s
    = Ret (Some (mkLocals n song (note_index s + 1))) (advanced s (len (notes song)) now) /\
    handle_press now s
    = Ret [Spawn n; Print (status_line song n (note_index s + 1))]
          (advanced s (len (notes song)) now).
Proof.
  intros Hinit Hg Hsame [_ [song [Hsong Hi]]] Hnow.
  assert (H0 : gate_seconds s0 = 0%Q).
  { destruct songs0; [discriminate|]. cbn in Hinit. injection Hinit as <-.
    cbn. apply py_max0_nonpos. exact Hg. }
  split; [exact H0|].
  assert (Hopen : Qltb (now - last_trigger s) (gate_seconds s) = false).
  { apply Qltb_ge. rewrite Hsame, H0. intros Hlt.
    apply (Qlt_not_le _ _ Hlt). unfold Qminus.
    rewrite <- (Qplus_opp_r (last_trigger s)).
    apply Qplus_le_l. exact Hnow. }
  destruct (critical_section_open now s song Hsong Hi Hopen) as [n [Hn Hc]].
  exists song, n. split; [exact Hsong|]. split; [exact Hn|]. split; [exact Hc|].
  unfold handle_press, bind. rewrite Hc. reflexivity.
Qed.

Lemma zero_gate_accepts_witness :
  let s := mkSinger [twinkle] 0 3 0 7 in
  handle_press 7 s
  = Ret [Spawn 67; Print "song='Twinkle' note=67 index=4/4"%string]
        (mkSinger [twinkle] 0 0 0 7).
Proof.
  destruct (zero_gate_accepts [twinkle] (-(1 # 2)) (mkSinger [twinkle] 0 0 0 0)
              (mkSinger [twinkle] 0 3 0 7) 7)
    as [_ [song [n [Hsong [Hn [_ Hp]]]]]].
  - reflexivity.
  - vm_compute. discriminate.
  - reflexivity.
  - split; [cbn; lia|]. exists twinkle. split; [reflexivity|cbn; lia].
  - vm_compute. discriminate.
  - vm_compute in Hsong. injection Hsong as <-.
    vm_compute in Hn. injection Hn as <-. exact Hp.
Defined.

(** With a zero gate and a clock that never goes back, the gate lets every
    press of a listener through. *)
Lemma zero_gate_opens (gate last : Q) (nows : list Q) :
  (gate == 0)%Q -> nondecreasing last nows -> gate_open_all gate last nows.
Proof.
  intros Hg. revert last. induction nows as [|now rest IH]; intros last H; cbn; [exact I|].
  destruct H as [Hle Hrest]. split; [|apply IH; exact Hrest].
  rewrite Hg. intros Hlt. apply (Qlt_not_le _ _ Hlt). unfold Qminus.
  rewrite <- (Qplus_opp_r last). apply Qplus_le_l. exact Hle.
Qed.

(** ** Invariants *)

(** C5: for a non-empty song list whose songs all have notes, construction
    establishes, and every press and every restart keeps,
    [0 <= song_index < len(songs)] and
    [0 <= note_index < len(current_song.notes)]. *)
Theorem invariants_preserved (songs0 : list Song) (gate : Q) :
  songs_ok songs0 ->
  (exists s0, init songs0 gate = inr s0 /\ songs s0 = songs0 /\ inv s0) /\
  (forall s, songs s = songs0 -> inv s ->
     (forall now, exists ev s',
        handle_press now s = Ret ev s' /\ songs s' = songs0 /\ inv s') /\
     (exists s', restart s = Ret tt s' /\ songs s' = songs0 /\ inv s')).
Proof.
  intros Hok. split.
  - destruct Hok as [Hne Hall]. destruct songs0 as [|sg rest]; [congruence|].
    eexists. split; [reflexivity|]. split; [reflexivity|].
    split; cbn [song_index songs note_index].
    + unfold len. cbn [List.length]. lia.
    + exists sg. split; [apply py_getitem_head|].
      inversion Hall; subst. pose proof (len_pos (notes sg) ltac:(assumption)). lia.
  - intros s Hs [Hsi [song [Hsong Hi]]]. split.
    + intros now.
      destruct (Qltb (now - last_trigger s) (gate_seconds s)) eqn:Hgate.
      * exists [], s. split; [|split; [exact Hs|]].
        -- unfold handle_press, bind.
           rewrite (critical_section_closed now s Hgate). reflexivity.
        -- split; [exact Hsi|]. exists song. split; assumption.
      * destruct (handle_press_open now s song Hsong Hi Hgate) as [n [_ Hp]].
        eexists. eexists. split; [exact Hp|]. split; [exact Hs|].
        apply advanced_inv; [exact Hsong|exact Hsi|lia].
    + eexists. split; [reflexivity|]. split; [exact Hs|].
      split; cbn [song_index songs note_index]; [exact Hsi|].
      exists song. split; [exact Hsong|lia].
Qed.

Lemma invariants_preserved_witness :
  exists s0, init [twinkle] (4 # 10) = inr s0 /\ inv s0 /\
    exists ev s1, handle_press 1 s0 = Ret ev s1 /\ inv s1.
Proof.
  destruct (invariants_preserved [twinkle] (4 # 10)) as [[s0 [H0 [Hs I0]]] Hstep].
  - split; [discriminate|]. repeat constructor. discriminate.
  - exists s0. split; [exact H0|]. split; [exact I0|].
    destruct (Hstep s0 Hs I0) as [Hpress _].
    destruct (Hpress 1%Q) as [ev [s1 [Hp [_ I1]]]].
    exists ev, s1. split; assumption.
Defined.

(** ** Construction *)

(** C6: construction with an empty song list raises and creates no state; with
    a non-empty list it succeeds at song 0, note 0, storing a negative gate as
    0 and a non-negative gate as given. *)
Theorem construction (songs0 : list Song) (gate : Q) :
  (songs0 = [] -> exists msg, init songs0 gate = inl (ValueError msg)) /\
  (songs0 <> [] ->
     exists s, init songs0 gate = inr s /\ songs s = songs0 /\
       song_index s = 0 /\ note_index s = 0 /\
       ((gate < 0)%Q -> gate_seconds s = 0%Q) /\
       ((0 <= gate)%Q -> (gate_seconds s == gate)%Q)).
Proof.
  split.
  - intros ->. eexists. reflexivity.
  - intros Hne. destruct songs0 as [|sg rest]; [congruence|].
    eexists. split; [reflexivity|]. cbn. repeat split.
    + intros H. apply py_max0_nonpos. apply Qlt_le_weak. exact H.
    + apply py_max0_nonneg.
Qed.

Lemma construction_witness :
  (exists msg, init [] (4 # 10) = inl (ValueError msg)) /\
  (exists s, init [twinkle] (-(3)) = inr s /\ gate_seconds s = 0%Q) /\
  (exists s, init [twinkle] (4 # 10) = inr s /\ note_index s = 0 /\
             (gate_seconds s == 4 # 10)%Q).
Proof.
  split; [|split].
  - apply (construction [] (4 # 10)). reflexivity.
  - destruct (construction [twinkle] (-(3))) as [_ H].
    destruct (H ltac:(discriminate)) as [s [Hs [_ [_ [_ [Hneg _]]]]]].
    exists s. split; [exact Hs|]. apply Hneg. reflexivity.
  - destruct (construction [twinkle] (4 # 10)) as [_ H].
    destruct (H ltac:(discriminate)) as [s [Hs [_ [_ [Hn [_ Hpos]]]]]].
    exists s. split; [exact Hs|]. split; [exact Hn|]. apply Hpos.
    vm_compute. discriminate.
Defined.

(** ** The gate example *)

(** C4, amended: with a gate of 1.0 s on the fresh singer for the song
    [60, 60, 67, 67], whose last trigger time starts at 0.0, the presses at
    t=0 and t=0.5 are debounced and change nothing; the press at t=1.0 is
    accepted (the boundary [now - last_trigger = gate_seconds] passes) and plays
    note 60 at position 1/4; after it the press at t=1.5 is debounced and the
    press at t=2.0 is accepted and plays note 60 at position 2/4. *)
Theorem gate_example :
  exists s0 s1 s2,
    init [twinkle] 1 = inr s0 /\
    handle_press 0 s0 = Ret [] s0 /\
    handle_press (1 # 2) s0 = Ret [] s0 /\
    handle_press 1 s0
      = Ret [Spawn 60; Print "song='Twinkle' note=60 index=1/4"%string] s1 /\
    note_index s1 = 1 /\ last_trigger s1 = 1%Q /\
    handle_press (3 # 2) s1 = Ret [] s1 /\
    handle_press 2 s1
      = Ret [Spawn 60; Print "song='Twinkle' note=60 index=2/4"%string] s2 /\
    note_index s2 = 2 /\ last_trigger s2 = 2%Q.
Proof.
  eexists. eexists. eexists.
  split; [reflexivity|].
  split; [reflexivity|].
  split; [reflexivity|].
  split; [reflexivity|].
  split; [reflexivity|].
  split; [reflexivity|].
  split; [reflexivity|].
  split; [reflexivity|].
  split; reflexivity.
Qed.

(** The example as the spec gives it does not happen: the press at t=0 on the
    fresh singer is not accepted. *)
Lemma gate_example_as_stated_fails :
  ~ (exists s0 s1 s2 line1 line2,
       init [twinkle] 1 = inr s0 /\
       handle_press 0 s0 = Ret [Spawn 60; Print line1] s1 /\
       handle_press (1 # 2) s1 = Ret [] s1 /\
       handle_press 1 s1 = Ret [Spawn 60; Print line2] s2).
Proof.
  intros [s0 [s1 [s2 [line1 [line2 [H0 [H1 _]]]]]]].
  cbn in H0. injection H0 as <-. vm_compute in H1. discriminate.
Qed.

(** ** The status line *)

(** C8, amended: an accepted press emits exactly one status line,
    [song=<repr(name)> note=<id> index=<position>/<length>], in which the song's
    name appears as Python's [repr] of it (quoted and escaped), the note is the
    one just played, the position is the 1-based position of that note and the
    length is the song's; a debounced press emits nothing. *)
Theorem one_status_line_per_accepted_press (s : KeyboardSinger) (now : Q) :
  inv s ->
  exists song n,
    py_getitem (songs s) (song_index s) = inr song /\
    py_getitem (notes song) (note_index s) = inr n /\
    let pos := note_index s + 1 in
    let line := ("song=" ++ py_repr (name song) ++ " note=" ++ py_str_int n
                 ++ " index=" ++ py_str_int pos ++ "/"
                 ++ py_str_int (len (notes song)))%string in
    1 <= pos <= len (notes song) /\
    (~ (now - last_trigger s < gate_seconds s)%Q ->
       exists s', handle_press now s = Ret [Spawn n; Print line] s') /\
    ((now - last_trigger s < gate_seconds s)%Q ->
       handle_press now s = Ret [] s).
Proof.
  intros [_ [song [Hsong Hi]]].
  destruct (py_getitem_in_range _ _ Hi) as [n [Hn _]].
  exists song, n. split; [exact Hsong|]. split; [exact Hn|]. cbv zeta.
  split; [lia|]. split.
  - intros Hgate. apply Qltb_ge in Hgate.
    destruct (handle_press_open now s song Hsong Hi Hgate) as [m [Hm Hp]].
    rewrite Hn in Hm. injection Hm as <-.
    eexists. exact Hp.
  - intros Hgate. apply handle_press_closed. apply Qltb_lt. exact Hgate.
Qed.

Lemma one_status_line_per_accepted_press_witness :
  exists s',
    handle_press 5 (mkSinger [twinkle] 0 2 (4 # 10) 1)
    = Ret [Spawn 67; Print "song='Twinkle' note=67 index=3/4"%string] s'.
Proof.
  destruct (one_status_line_per_accepted_press (mkSinger [twinkle] 0 2 (4 # 10) 1) 5)
    as [song [n [Hsong [Hn [_ [Hacc _]]]]]].
  - split; [cbn; lia|]. exists twinkle. split; [reflexivity|cbn; lia].
  - vm_compute in Hsong. injection Hsong as <-.
    vm_compute in Hn. injection Hn as <-.
    apply Hacc. vm_compute. discriminate.
Defined.

(** The line in the spec's wording, with the bare name, is not what an
    accepted press prints. *)
Lemma spec_status_line_not_printed :
  exists s0, init [twinkle] 0 = inr s0 /\
    spec_status_line twinkle 60 1 = "song=Twinkle note=60 index=1/4"%string /\
    forall ev s1, handle_press 0 s0 = Ret ev s1 ->
      ev <> [] /\ ~ In (Print (spec_status_line twinkle 60 1)) ev.
Proof.
  eexists. split; [reflexivity|]. split; [reflexivity|].
  intros ev s1 H. vm_compute in H. injection H as <- <-.
  split; [discriminate|].
  intros [H|[H|[]]]; vm_compute in H; discriminate.
Qed.

(** * Notes of a MIDI file *)

Lemma insert_by_key_perm (x : Z * Z) (l : list (Z * Z)) :
  Permutation (insert_by_key x l) (x :: l).
Proof.
  induction l as [|y l IH]; cbn; [reflexivity|].
  destruct (fst x <=? fst y); [reflexivity|].
  rewrite IH. apply perm_swap.
Qed.

Lemma sort_by_key_perm (l : list (Z * Z)) : Permutation (sort_by_key l) l.
Proof.
  induction l as [|x l IH]; cbn; [reflexivity|].
  rewrite insert_by_key_perm. apply perm_skip. exact IH.
Qed.

Lemma insert_by_key_sorted (x : Z * Z) (l : list (Z * Z)) :
  StronglySorted key_le l -> StronglySorted key_le (insert_by_key x l).
Proof.
  induction l as [|y l IH]; intros Hs; cbn.
  - constructor; constructor.
  - inversion Hs as [|? ? Hs' Hall]; subst.
    destruct (Z.leb_spec (fst x) (fst y)) as [Hle|Hgt].
    + constructor; [exact Hs|]. constructor; [exact Hle|].
      eapply Forall_impl; [|exact Hall].
      intros z Hz. unfold key_le in *. lia.
    + constructor; [apply IH; exact Hs'|].
      eapply Permutation_Forall.
      * symmetry. apply insert_by_key_perm.
      * constructor; [unfold key_le; lia|exact Hall].
Qed.

Lemma sort_by_key_sorted (l : list (Z * Z)) : StronglySorted key_le (sort_by_key l).
Proof.
  induction l as [|x l IH]; cbn; [constructor|].
  apply insert_by_key_sorted. exact IH.
Qed.

(** Insertion passes only items of a smaller key, so it keeps the new item
    first among those of its own key. *)
Lemma insert_by_key_at_tick (t : Z) (x : Z * Z) (l : list (Z * Z)) :
  at_tick t (insert_by_key x l) = at_tick t (x :: l).
Proof.
  unfold at_tick.
  induction l as [|y l IH]; cbn [insert_by_key]; [reflexivity|].
  destruct (Z.leb_spec (fst x) (fst y)) as [Hle|Hgt]; [reflexivity|].
  cbn [filter] in *. rewrite IH.
  destruct (Z.eqb_spec (fst x) t) as [Hx|Hx];
    destruct (Z.eqb_spec (fst y) t) as [Hy|Hy]; try reflexivity.
  lia.
Qed.

Lemma sort_by_key_stable (t : Z) (l : list (Z * Z)) :
  at_tick t (sort_by_key l) = at_tick t l.
Proof.
  induction l as [|x l IH]; cbn [sort_by_key]; [reflexivity|].
  rewrite insert_by_key_at_tick. unfold at_tick in *. cbn [filter].
  rewrite IH. reflexivity.
Qed.

Lemma visit_messages (track : list Message) : forall (ticks : Z) (acc : list (Z * Z)),
  snd (fold_left visit_message track (ticks, acc))
  = acc ++ map (fun tm => (fst tm, msg_note (snd tm)))
             (filter (fun tm => playable (snd tm)) (absolute_times ticks track)).
Proof.
  induction track as [|m rest IH]; intros ticks acc; cbn.
  - rewrite app_nil_r. reflexivity.
  - unfold visit_message at 2. cbn [fst snd].
    destruct (playable m); rewrite IH; [|reflexivity].
    cbn. rewrite <- app_assoc. reflexivity.
Qed.

Lemma visit_tracks (trs : list (list Message)) : forall acc : list (Z * Z),
  fold_left visit_track trs acc = acc ++ timed_notes (mkMidiFile trs).
Proof.
  induction trs as [|track rest IH]; intros acc; cbn.
  - rewrite app_nil_r. reflexivity.
  - rewrite IH. unfold visit_track. rewrite visit_messages.
    unfold timed_notes. cbn. rewrite <- app_assoc. reflexivity.
Qed.

Lemma is_sounding_iff (m : Message) : is_sounding m = true <-> sounding m.
Proof.
  unfold is_sounding, sounding.
  destruct (string_dec (msg_type m) "note_on") as [E|E].
  - rewrite negb_true_iff, Z.leb_gt. split; [intros H; split; assumption|].
    intros [_ H]. exact H.
  - split; [discriminate|]. intros [H _]. contradiction.
Qed.

(** The test of the loader is the one of the claim. *)
Lemma playable_is_sounding (m : Message) : playable m = is_sounding m.
Proof.
  unfold playable, is_sounding.
  destruct (string_dec (msg_type m) "note_on") as [E|E].
  - rewrite (proj2 (String.eqb_eq _ _) E). cbn [andb]. apply Z.ltb_antisym.
  - rewrite (proj2 (String.eqb_neq _ _) E). reflexivity.
Qed.

Lemma timed_notes_sounding (midi : MidiFile) : timed_notes midi = sounding_items midi.
Proof.
  unfold timed_notes, sounding_items. apply flat_map_ext. intros track.
  f_equal. apply filter_ext. intros tm. apply playable_is_sounding.
Qed.

Lemma elapsed_snoc (before : list Message) (m : Message) :
  elapsed (before ++ [m]) = elapsed before + msg_time m.
Proof.
  unfold elapsed. induction before as [|x before IH]; cbn [app fold_right];
    [lia|rewrite IH; lia].
Qed.

(** A message of a track stands with the ticks gone by up to and with it. *)
Lemma absolute_times_In (track : list Message) : forall (start t : Z) (m : Message),
  In (t, m) (absolute_times start track) <->
  exists before after, track = before ++ m :: after /\
                       t = start + elapsed (before ++ [m]).
Proof.
  induction track as [|x rest IH]; intros start t m; cbn [absolute_times In].
  - split; [intros []|]. intros [before [after [H _]]].
    destruct before; discriminate.
  - split.
    + intros [H|H].
      * injection H as <- <-. exists [], rest. split; [reflexivity|].
        cbn [app elapsed fold_right]. lia.
      * apply IH in H. destruct H as [before [after [-> ->]]].
        exists (x :: before), after. split; [reflexivity|].
        rewrite !elapsed_snoc. cbn [app elapsed fold_right]. fold (elapsed before). lia.
    + intros [before [after [H ->]]]. destruct before as [|y before].
      * cbn [app] in H. injection H as <- <-. left.
        cbn [app elapsed fold_right]. f_equal. lia.
      * cbn [app] in H. injection H as <- ->. right. apply IH.
        exists before, after. split; [reflexivity|].
        rewrite !elapsed_snoc. cbn [app elapsed fold_right]. fold (elapsed before). lia.
Qed.

Lemma sounding_items_In (midi : MidiFile) (t n : Z) :
  In (t, n) (sounding_items midi) <->
  exists track before m after,
    In track (tracks midi) /\ track = before ++ m :: after /\
    msg_type m = "note_on"%string /\ 0 < msg_velocity m /\
    n = msg_note m /\ t = elapsed (before ++ [m]).
Proof.
  unfold sounding_items. rewrite in_flat_map. split.
  - intros [track [Htrack Hin]]. apply in_map_iff in Hin.
    destruct Hin as [[t' m] [Heq Hin]]. cbn [fst snd] in Heq.
    injection Heq as Ht Hn. subst t' n.
    apply filter_In in Hin. destruct Hin as [Hin Hs]. cbn [snd] in Hs.
    apply is_sounding_iff in Hs. destruct Hs as [Hty Hvel].
    apply absolute_times_In in Hin. destruct Hin as [before [after [-> ->]]].
    exists (before ++ m :: after), before, m, after.
    repeat split; try assumption; try reflexivity; lia.
  - intros [track [before [m [after [Htrack [-> [Hty [Hvel [-> ->]]]]]]]]].
    exists (before ++ m :: after). split; [exact Htrack|].
    apply in_map_iff. exists (elapsed (before ++ [m]), m). split; [reflexivity|].
    apply filter_In. split.
    + apply absolute_times_In. exists before, after. split; [reflexivity|lia].
    + cbn [snd]. apply is_sounding_iff. split; assumption.
Qed.

(** C10: the notes taken from a MIDI file are the note numbers of exactly the
    [note_on] messages whose velocity is strictly greater than 0 (a [note_on]
    of velocity 0 and every other message are left out), each with the
    absolute tick time summed up along its track, put in ascending tick order
    across the tracks by a stable sort: notes of one tick time keep the order
    in which the tracks were gone through. *)
Theorem midi_notes_in_tick_order (midi : MidiFile) :
  exists sorted : list (Z * Z),
    load_midi_notes midi = map snd sorted /\
    (forall t n : Z,
       In (t, n) sorted <->
       exists track before m after,
         In track (tracks midi) /\ track = before ++ m :: after /\
         msg_type m = "note_on"%string /\ 0 < msg_velocity m /\
         n = msg_note m /\ t = elapsed (before ++ [m])) /\
    Permutation sorted (sounding_items midi) /\
    Permutation (load_midi_notes midi) (map snd (sounding_items midi)) /\
    StronglySorted key_le sorted /\
    forall t : Z, at_tick t sorted = at_tick t (sounding_items midi).
Proof.
  destruct midi as [trs]. rewrite <- timed_notes_sounding.
  exists (sort_by_key (timed_notes (mkMidiFile trs))).
  assert (E : load_midi_notes (mkMidiFile trs)
              = map snd (sort_by_key (timed_notes (mkMidiFile trs)))).
  { unfold load_midi_notes. cbn [tracks]. rewrite visit_tracks. reflexivity. }
  split; [exact E|]. split.
  - intros t n. rewrite <- sounding_items_In, <- timed_notes_sounding.
    split; apply Permutation_in; [|symmetry]; apply sort_by_key_perm.
  - split; [apply sort_by_key_perm|].
    split; [rewrite E; apply Permutation_map, sort_by_key_perm|].
    split; [apply sort_by_key_sorted|].
    intros t. apply sort_by_key_stable.
Qed.

(** Of the three messages of [filter_midi] the loader takes the first: a
    note-on of velocity 0 and a note-off are left out. *)
Lemma midi_notes_in_tick_order_witness :
  In 60 (load_midi_notes filter_midi) /\
  ~ In 61 (load_midi_notes filter_midi) /\
  ~ In 63 (load_midi_notes filter_midi).
Proof.
  destruct (midi_notes_in_tick_order filter_midi) as [sorted [-> [Hin _]]].
  assert (Hout : forall n, In n (map snd sorted) -> n = 60).
  { intros n H. apply in_map_iff in H. destruct H as [[t n'] [Hn H]].
    cbn [snd] in Hn. subst n'. apply Hin in H.
    destruct H as [track [before [m [after [Htrack [Hsplit [Hty [Hvel [-> _]]]]]]]]].
    destruct Htrack as [<-|[]].
    assert (Hm : In m [mkMessage "note_on" 0 60 64; mkMessage "note_on" 5 61 0;
                       mkMessage "note_off" 5 63 64])
      by (rewrite Hsplit; apply in_elt).
    destruct Hm as [<-|[<-|[<-|[]]]]; cbn in *; [reflexivity|lia|discriminate]. }
  split; [|split].
  - apply in_map_iff. exists (0, 60). split; [reflexivity|].
    apply Hin. exists [mkMessage "note_on" 0 60 64; mkMessage "note_on" 5 61 0;
                       mkMessage "note_off" 5 63 64],
                      [], (mkMessage "note_on" 0 60 64),
                      [mkMessage "note_on" 5 61 0; mkMessage "note_off" 5 63 64].
    split; [left; reflexivity|]. repeat split; reflexivity.
  - intros H. apply Hout in H. discriminate.
  - intros H. apply Hout in H. discriminate.
Defined.

(** The two tracks of [demo_midi] merged: the note-on of velocity 0 and the
    note-off are left out, and of the two notes at tick 10 the one of the
    first track comes first. *)
Example load_demo_midi : load_midi_notes demo_midi = [60; 62; 48; 50].
Proof. reflexivity. Qed.

(** * The song list *)

Lemma parse_notes_spec (items : list string) :
  let stripped := filter (fun item => negb (is_empty item)) (map py_strip items) in
  match parse_notes items with
  | inl e => exists item,
      In item stripped /\ py_int item = None /\
      e = ValueError (int_error_message item)
  | inr ns => Forall2 (fun item n => py_int item = Some n) stripped ns
  end.
Proof.
  cbv zeta. induction items as [|item rest IH]; cbn [parse_notes map filter].
  - constructor.
  - destruct (is_empty (py_strip item)); cbn [negb]; [exact IH|].
    destruct (py_int (py_strip item)) as [n|] eqn:En.
    + destruct (parse_notes rest) as [e|ns].
      * destruct IH as [it [Hin [Hnone He]]].
        exists it. split; [right; exact Hin|]. split; assumption.
      * constructor; assumption.
    + exists (py_strip item). split; [left; reflexivity|]. split; [exact En|reflexivity].
Qed.

Lemma body_of_partition (raw : string) :
  exists sep, py_partition ":" raw = (name_of raw, sep, body_of raw).
Proof.
  unfold body_of, name_of. destruct (py_partition ":" raw) as [[name0 sep] body].
  exists sep. reflexivity.
Qed.

Lemma is_empty_true (s : string) : is_empty s = true <-> s = EmptyString.
Proof. destruct s; cbn; split; congruence. Qed.

Lemma Forall2_no_failure (items : list string) (ns : list Z) (item : string) :
  Forall2 (fun item n => py_int item = Some n) items ns ->
  In item items -> py_int item <> None.
Proof.
  induction 1 as [|x y xs ys Hxy _ IH]; cbn; [tauto|].
  intros [<-|Hin]; [congruence|]. apply IH. exact Hin.
Qed.

(** What [parse_builtin_song] does, by its result. *)
Lemma parse_builtin_song_spec (raw : string) :
  match parse_builtin_song raw with
  | inl e => malformed raw /\ exists msg, e = ArgumentTypeError msg
  | inr song => ~ malformed raw /\ notes song <> [] /\ parsed_as raw song
  end.
Proof.
  unfold parse_builtin_song, malformed, parsed_as, note_items.
  destruct (body_of_partition raw) as [sep Hp]. rewrite Hp.
  destruct (is_empty (body_of raw)) eqn:Hb.
  - split; [left; apply is_empty_true; exact Hb|]. eexists. reflexivity.
  - assert (Hbody : body_of raw <> EmptyString).
    { intros H. apply is_empty_true in H. congruence. }
    pose proof (parse_notes_spec (py_split "," (body_of raw))) as Hn. cbv zeta in Hn.
    destruct (parse_notes (py_split "," (body_of raw))) as [e|ns].
    + destruct Hn as [item [Hin [Hnone ->]]].
      split; [|eexists; reflexivity].
      right. left. exists item. split; assumption.
    + destruct ns as [|n ns].
      * inversion Hn as [Hnil|]. split; [|eexists; reflexivity].
        right. right. reflexivity.
      * split; [|split; [discriminate|split; [reflexivity|exact Hn]]].
        intros [H|[[item [Hin Hnone]]|H]].
        -- contradiction.
        -- exact (Forall2_no_failure _ _ item Hn Hin Hnone).
        -- rewrite H in Hn. inversion Hn.
Qed.

Lemma parse_song_args_spec (raws : list string) :
  match parse_song_args raws with
  | inl e => exists raw, In raw raws /\ malformed raw
  | inr l => (forall raw, In raw raws -> ~ malformed raw) /\
             Forall (fun sg => notes sg <> []) l /\
             Forall2 parsed_as raws l
  end.
Proof.
  induction raws as [|raw rest IH]; cbn [parse_song_args].
  - split; [intros raw []|split; constructor].
  - pose proof (parse_builtin_song_spec raw) as Hraw.
    destruct (parse_builtin_song raw) as [e|song].
    + exists raw. split; [left; reflexivity|apply Hraw].
    + destruct (parse_song_args rest) as [e|l].
      * destruct IH as [r [Hin Hm]]. exists r. split; [right; exact Hin|exact Hm].
      * destruct IH as [Hall [Hne Hpar]]. destruct Hraw as [Hok [Hnotes Hp]].
        split; [|split].
        -- intros r [<-|Hin]; [exact Hok|apply Hall; exact Hin].
        -- constructor; assumption.
        -- constructor; assumption.
Qed.

Section SongSetFacts.

Variable mido_MidiFile : string -> exn + MidiFile.
Variable Path_name : string -> string.
Variable Path_str : string -> string.

(** What the loop over the MIDI arguments does, by its result. *)
Lemma collect_midi_spec (midi_args : list string) : forall songs0 : list Song,
  match collect_midi mido_MidiFile Path_name Path_str midi_args songs0 with
  | inl e => exists path, In path midi_args /\ midi_fails mido_MidiFile path
  | inr l =>
      (forall path, In path midi_args -> ~ midi_fails mido_MidiFile path) /\
      exists midis,
        Forall2 (fun path midi => mido_MidiFile path = inr midi /\
                                  load_midi_notes midi <> []) midi_args midis /\
        l = songs0 ++ map (fun pm => midi_song Path_name (fst pm) (snd pm))
                          (combine midi_args midis)
  end.
Proof.
  induction midi_args as [|path rest IH]; intros songs0; cbn [collect_midi].
  - split; [intros path []|]. exists []. split; [constructor|].
    cbn. rewrite app_nil_r. reflexivity.
  - destruct (mido_MidiFile path) as [e|midi] eqn:Hmidi.
    + exists path. split; [left; reflexivity|]. left. exists e. exact Hmidi.
    + destruct (load_midi_notes midi) as [|n ns] eqn:Hload.
      * exists path. split; [left; reflexivity|]. right. exists midi.
        split; assumption.
      * specialize (IH (songs0 ++ [mkSong ("MIDI:" ++ Path_name path) (n :: ns)])).
        destruct (collect_midi _ _ _ rest _) as [e|l].
        -- destruct IH as [p [Hin H]]. exists p. split; [right; exact Hin|exact H].
        -- destruct IH as [Hnone [midis [Hall ->]]]. split.
           ++ intros p [<-|Hin]; [|apply Hnone; exact Hin].
              intros [[e He]|[m [Hm Hl]]]; [congruence|].
              rewrite Hmidi in Hm. injection Hm as <-. congruence.
           ++ exists (midi :: midis). split.
              ** constructor; [|exact Hall]. split; [exact Hmidi|congruence].
              ** rewrite <- app_assoc. cbn [combine map app fst snd].
                 unfold midi_song at 2. rewrite Hload. reflexivity.
Qed.

(** C7, amended: building the song list raises, and gives no list, if some
    MIDI argument does not decode or decodes to no playable note-on, or if
    some inline song text is malformed: no note list, a note that [int] does
    not take (no integer, or an integer of more than 4300 digits), or an empty
    note list.  Otherwise it gives the built-in songs, then the inline songs
    with their names and notes in the order given, then one song per MIDI
    file: a non-empty list of songs that all have notes. *)
Theorem song_set_construction (song_args midi_args : list string) :
  let bad := (exists raw, In raw song_args /\ malformed raw) \/
             (exists path, In path midi_args /\ midi_fails mido_MidiFile path) in
  (bad -> exists e,
     build_song_set mido_MidiFile Path_name Path_str song_args midi_args = inl e) /\
  (~ bad -> exists extra midis,
     Forall2 parsed_as song_args extra /\
     Forall2 (fun path midi => mido_MidiFile path = inr midi /\
                               load_midi_notes midi <> []) midi_args midis /\
     let l := build_default_songs ++ extra
              ++ map (fun pm => midi_song Path_name (fst pm) (snd pm))
                     (combine midi_args midis) in
     build_song_set mido_MidiFile Path_name Path_str song_args midi_args = inr l /\
     songs_ok l).
Proof.
  intros bad.
  assert (H : match build_song_set mido_MidiFile Path_name Path_str song_args midi_args with
              | inl e => bad
              | inr l0 => ~ bad /\ exists extra midis,
                  Forall2 parsed_as song_args extra /\
                  Forall2 (fun path midi => mido_MidiFile path = inr midi /\
                                            load_midi_notes midi <> []) midi_args midis /\
                  l0 = build_default_songs ++ extra
                       ++ map (fun pm => midi_song Path_name (fst pm) (snd pm))
                              (combine midi_args midis) /\
                  songs_ok l0
              end).
  { unfold build_song_set, collect_songs, bad.
    pose proof (parse_song_args_spec song_args) as Hargs.
    destruct (parse_song_args song_args) as [e|extra].
    - left. exact Hargs.
    - destruct Hargs as [Hall [Hextra Hpar]].
      pose proof (collect_midi_spec midi_args (build_default_songs ++ extra)) as Hm.
      destruct (collect_midi _ _ _ midi_args _) as [e|l].
      + right. exact Hm.
      + destruct Hm as [Hnone [midis [Hmid ->]]]. split.
        * intros [[raw [Hin Hbad]]|[path [Hin Hf]]];
            [exact (Hall raw Hin Hbad)|exact (Hnone path Hin Hf)].
        * exists extra, midis. split; [exact Hpar|]. split; [exact Hmid|].
          rewrite <- app_assoc. split; [reflexivity|].
          split; [discriminate|].
          repeat rewrite Forall_app. split; [repeat constructor; discriminate|].
          split; [exact Hextra|].
          clear - Hmid. induction Hmid as [|path midi ps ms [_ Hn] _ IH];
            cbn [combine map]; constructor; assumption. }
  destruct (build_song_set _ _ _ song_args midi_args) as [e|l0].
  - split; [intros _; exists e; reflexivity|]. intros Hn. contradiction.
  - destruct H as [Hok [extra [midis [Hpar [Hmid [-> Hs]]]]]].
    split; [intros Hb; contradiction|].
    intros _. exists extra, midis. split; [exact Hpar|]. split; [exact Hmid|].
    cbv zeta. split; [reflexivity|exact Hs].
Qed.

End SongSetFacts.

Lemma song_set_construction_witness :
  build_song_set missing_files (fun p => p) (fun p => p)
    ["mine:60,62"%string] ["demo.mid"%string]
  = inr (build_default_songs
         ++ [mkSong "mine" [60; 62]; mkSong "MIDI:demo.mid" [60; 62; 48; 50]]) /\
  (exists e, build_song_set missing_files (fun p => p) (fun p => p)
               ["mine:60,sixty"%string] ["demo.mid"%string] = inl e) /\
  (exists e, build_song_set missing_files (fun p => p) (fun p => p)
               ["mine:60,62"%string] ["silent.mid"%string] = inl e) /\
  (exists e, build_song_set missing_files (fun p => p) (fun p => p)
               ["mine:60,62"%string] ["missing.mid"%string] = inl e).
Proof.
  split; [|split; [|split]].
  - destruct (song_set_construction missing_files (fun p => p) (fun p => p)
                ["mine:60,62"%string] ["demo.mid"%string]) as [_ Hok].
    destruct Hok as [extra [midis [Hpar [Hmid [Hbuild _]]]]].
    + intros [[raw [[<-|[]] Hm]]|[path [[<-|[]] Hf]]].
      * destruct Hm as [H|[[item [Hin Hnone]]|H]].
        -- vm_compute in H. discriminate.
        -- vm_compute in Hin. destruct Hin as [<-|[<-|[]]];
             vm_compute in Hnone; discriminate.
        -- vm_compute in H. discriminate.
      * destruct Hf as [[e He]|[midi [Hm Hl]]].
        -- vm_compute in He. discriminate.
        -- vm_compute in Hm. injection Hm as <-. vm_compute in Hl. discriminate.
    + cbv zeta in Hbuild. rewrite Hbuild. f_equal. f_equal.
      inversion Hpar as [|raw [nm ns] raws songs0 [Hname Hnotes] Hrest]; subst.
      inversion Hrest; subst.
      inversion Hmid as [|path midi paths midis0 [Hm _] Hrest2]; subst.
      inversion Hrest2; subst.
      vm_compute in Hm. injection Hm as <-.
      cbn [notes name] in Hname, Hnotes.
      assert (En : (if is_empty (py_strip (name_of "mine:60,62"))
                    then "custom"%string else py_strip (name_of "mine:60,62"))
                   = "mine"%string) by reflexivity.
      assert (Ei : note_items "mine:60,62" = ["60"; "62"]%string) by reflexivity.
      rewrite En in Hname. rewrite Ei in Hnotes. subst nm.
      inversion Hnotes as [|i1 n1 is1 ns1 H1 Hn1]; subst.
      inversion Hn1 as [|i2 n2 is2 ns2 H2 Hn2]; subst.
      inversion Hn2; subst.
      vm_compute in H1. vm_compute in H2.
      injection H1 as <-. injection H2 as <-. reflexivity.
  - apply (song_set_construction missing_files (fun p => p) (fun p => p)
             ["mine:60,sixty"%string] ["demo.mid"%string]).
    left. exists "mine:60,sixty"%string. split; [left; reflexivity|].
    right. left. exists "sixty"%string. split; [right; left; reflexivity|reflexivity].
  - apply (song_set_construction missing_files (fun p => p) (fun p => p)
             ["mine:60,62"%string] ["silent.mid"%string]).
    right. exists "silent.mid"%string. split; [left; reflexivity|].
    right. exists silent_midi. split; reflexivity.
  - apply (song_set_construction missing_files (fun p => p) (fun p => p)
             ["mine:60,62"%string] ["missing.mid"%string]).
    right. exists "missing.mid"%string. split; [left; reflexivity|].
    left. eexists. reflexivity.
Defined.

(** The claim as it stands, with a file without note-on events and a
    malformed inline song as the only causes of failure, does not hold: a MIDI
    argument that does not decode makes the start-up fail as well. *)
Lemma undecodable_midi_fails_construction :
  ~ ((exists raw, In raw (@nil string) /\ malformed raw) \/
     has_silent_file missing_files ["missing.mid"%string]) /\
  build_song_set missing_files (fun p => p) (fun p => p) [] ["missing.mid"%string]
  = inl (OSError "[Errno 2] No such file or directory: 'missing.mid'").
Proof.
  split; [|reflexivity].
  intros [[raw [[] _]]|[path [midi [[<-|[]] [Hm _]]]]].
  vm_compute in Hm. discriminate.
Qed.

Example build_song_set_demo :
  build_song_set demo_files (fun p => p) (fun p => p)
    ["mine: 60, 6_2,,-4 ,+7"%string; ":72"%string] ["demo.mid"%string]
  = inr (build_default_songs
         ++ [mkSong "mine" [60; 62; -4; 7]; mkSong "custom" [72];
             mkSong "MIDI:demo.mid" [60; 62; 48; 50]]).
Proof. reflexivity. Qed.

(** * Presses on several threads *)

(** ** Replacing one thread *)

Lemma length_set_nth {A} (n : nat) (x : A) (l : list A) :
  List.length (set_nth n x l) = List.length l.
Proof.
  revert n. induction l as [|y l IH]; intros [|n]; cbn; try reflexivity.
  rewrite IH. reflexivity.
Qed.

Lemma nth_error_set_nth_eq {A} (n : nat) (x p : A) (l : list A) :
  nth_error l n = Some p -> nth_error (set_nth n x l) n = Some x.
Proof.
  revert n. induction l as [|y l IH]; intros [|n]; cbn; try discriminate.
  - reflexivity.
  - apply IH.
Qed.

Lemma nth_error_set_nth_neq {A} (n m : nat) (x : A) (l : list A) :
  n <> m -> nth_error (set_nth n x l) m = nth_error l m.
Proof.
  revert n m. induction l as [|y l IH]; intros [|n] [|m] H; cbn; try reflexivity.
  - congruence.
  - apply IH. congruence.
Qed.

Lemma set_nth_split {A} (n : nat) (x p : A) (l : list A) :
  nth_error l n = Some p ->
  exists l1 l2, l = l1 ++ p :: l2 /\ set_nth n x l = l1 ++ x :: l2.
Proof.
  revert n. induction l as [|y l IH]; intros [|n]; cbn; try discriminate.
  - intros H. injection H as ->. exists [], l. split; reflexivity.
  - intros H. destruct (IH n H) as [l1 [l2 [E1 E2]]].
    exists (y :: l1), l2. cbn. rewrite <- E1, E2. split; reflexivity.
Qed.

Section FlatMapSetNth.

Context {A B : Type} (f : A -> list B).

(** The thread's share grows by [d]. *)
Lemma flat_map_set_nth_more (n : nat) (x p : A) (l : list A) (d : list B) :
  nth_error l n = Some p ->
  Permutation (f x) (d ++ f p) ->
  Permutation (flat_map f (set_nth n x l)) (d ++ flat_map f l).
Proof.
  intros Hn Hd. destruct (set_nth_split n x p l Hn) as [l1 [l2 [-> ->]]].
  rewrite !flat_map_app. cbn. rewrite Hd.
  rewrite <- app_assoc. rewrite !app_assoc.
  apply Permutation_app_tail. apply Permutation_app_tail.
  apply Permutation_app_comm.
Qed.

(** The thread's share shrinks by [d]. *)
Lemma flat_map_set_nth_less (n : nat) (x p : A) (l : list A) (d : list B) :
  nth_error l n = Some p ->
  Permutation (f p) (d ++ f x) ->
  Permutation (flat_map f l) (d ++ flat_map f (set_nth n x l)).
Proof.
  intros Hn Hd. destruct (set_nth_split n x p l Hn) as [l1 [l2 [-> ->]]].
  rewrite !flat_map_app. cbn. rewrite Hd.
  rewrite <- app_assoc. rewrite !app_assoc.
  apply Permutation_app_tail. apply Permutation_app_tail.
  apply Permutation_app_comm.
Qed.

Lemma flat_map_set_nth_same (n : nat) (x p : A) (l : list A) :
  nth_error l n = Some p -> f x = f p ->
  flat_map f (set_nth n x l) = flat_map f l.
Proof.
  intros Hn Hd. destruct (set_nth_split n x p l Hn) as [l1 [l2 [-> ->]]].
  rewrite !flat_map_app. cbn. rewrite Hd. reflexivity.
Qed.

End FlatMapSetNth.

(** ** The serial run *)

Lemma critical_section_total (now : Q) (s : KeyboardSinger) :
  inv s -> exists r s', critical_section now s = Ret r s' /\ inv s'.
Proof.
  intros [Hsi [song [Hsong Hi]]].
  destruct (Qltb (now - last_trigger s) (gate_seconds s)) eqn:Hgate.
  - exists None, s. split; [apply critical_section_closed; exact Hgate|].
    split; [exact Hsi|]. exists song. split; assumption.
  - destruct (critical_section_open now s song Hsong Hi Hgate) as [n [_ Hc]].
    eexists. eexists. split; [exact Hc|].
    apply advanced_inv; [exact Hsong|exact Hsi|lia].
Qed.

Lemma handle_press_results (now : Q) (s : KeyboardSinger) (r : option locals)
    (s' : KeyboardSinger) :
  critical_section now s = Ret r s' -> handle_press now s = Ret (results_of r) s'.
Proof.
  intros H. unfold handle_press, bind. rewrite H. destruct r; reflexivity.
Qed.

Lemma run_presses_snoc (served : list Q) : forall (s0 : KeyboardSinger)
    (evs : list (list event)) (sp : KeyboardSinger) (now : Q)
    (r : option locals) (s' : KeyboardSinger),
  run_presses served s0 = Ret evs sp ->
  critical_section now sp = Ret r s' ->
  run_presses (served ++ [now]) s0 = Ret (evs ++ [results_of r]) s'.
Proof.
  induction served as [|t rest IH]; intros s0 evs sp now r s' Hrun Hc.
  - cbn in Hrun. injection Hrun as <- <-. cbn. unfold bind.
    rewrite (handle_press_results _ _ _ _ Hc). reflexivity.
  - cbn [run_presses app] in *. unfold bind in Hrun |- *.
    destruct (handle_press t s0) as [ev s1|e s1]; [|discriminate].
    destruct (run_presses rest s1) as [evs1 s2|e s2] eqn:Hrest; [|discriminate].
    injection Hrun as <- <-.
    rewrite (IH s1 evs1 s2 now r s' Hrest Hc). reflexivity.
Qed.

(** ** Worlds that presses fired together can reach *)

Lemma critical_mark (p : pc) :
  critical p = true -> entered_mark p = [tt] /\ pending p = [] /\ forall e, p <> Raised e.
Proof. destruct p; cbn; intros H; try discriminate; repeat split; discriminate. Qed.

Lemma critical_after_step (ths : list pc) (lock lock' : option nat) (tid : nat)
    (p0 p' : pc) :
  (forall t p, nth_error ths t = Some p -> (critical p = true <-> lock = Some t)) ->
  nth_error ths tid = Some p0 ->
  (critical p' = true <-> lock' = Some tid) ->
  (forall t, t <> tid -> (lock' = Some t <-> lock = Some t)) ->
  forall t p, nth_error (set_nth tid p' ths) t = Some p ->
              (critical p = true <-> lock' = Some t).
Proof.
  intros Hc H0 H1 H2 t p Hn. destruct (Nat.eq_dec tid t) as [<-|Hne].
  - rewrite (nth_error_set_nth_eq _ _ _ _ H0) in Hn. injection Hn as <-. exact H1.
  - rewrite nth_error_set_nth_neq in Hn by exact Hne.
    rewrite H2 by congruence. apply Hc. exact Hn.
Qed.

Lemma no_raise_after_step (ths : list pc) (tid : nat) (p0 p' : pc) :
  (forall t e, nth_error ths t <> Some (Raised e)) ->
  nth_error ths tid = Some p0 ->
  (forall e, p' <> Raised e) ->
  forall t e, nth_error (set_nth tid p' ths) t <> Some (Raised e).
Proof.
  intros Hr H0 Hp t e Hn. destruct (Nat.eq_dec tid t) as [<-|Hne].
  - rewrite (nth_error_set_nth_eq _ _ _ _ H0) in Hn. injection Hn as ->.
    exact (Hp e eq_refl).
  - rewrite nth_error_set_nth_neq in Hn by exact Hne. exact (Hr t e Hn).
Qed.

Section Reachable.

Variable s0 : KeyboardSinger.
Variable n : nat.

Lemma reachable_start (clock0 : Q) : inv s0 -> reachable_inv s0 n (start_world s0 clock0 n).
Proof.
  intros Hinv. constructor; cbn.
  - apply repeat_length.
  - induction n as [|k IH]; cbn; [reflexivity|exact IH].
  - intros tid p Hn. apply nth_error_In, repeat_spec in Hn. subst p.
    cbn. split; discriminate.
  - intros tid e Hn. apply nth_error_In, repeat_spec in Hn. discriminate.
  - exists [], [], s0. split; [reflexivity|]. split; [exact Hinv|].
    split; [|split; reflexivity].
    cbn. induction n as [|k IH]; cbn; [constructor|exact IH].
Qed.

(** A step before or after the [with] block. *)
Lemma outside_step (w : world) (tid : nat) (p0 p' : pc) (d : list event)
    (c : Q) (out' : list event) :
  reachable_inv s0 n w ->
  nth_error (w_threads w) tid = Some p0 ->
  critical p0 = false -> critical p' = false ->
  (forall e, p' <> Raised e) ->
  entered_mark p' = entered_mark p0 ->
  out' = w_out w ++ d ->
  Permutation (pending p0) (d ++ pending p') ->
  reachable_inv s0 n
    (mkWorld (w_singer w) (w_lock w) c (set_nth tid p' (w_threads w)) out' (w_entered w)).
Proof.
  intros [Hlen Hmarks Hcrit Hraise Hser] H0 Hc0 Hc' Hr' Hm -> Hpend.
  assert (Hfree : w_lock w <> Some tid).
  { intros E. apply (Hcrit tid p0 H0) in E. congruence. }
  constructor; cbn [w_threads w_entered w_lock w_singer w_out].
  - rewrite length_set_nth. exact Hlen.
  - rewrite (flat_map_set_nth_same entered_mark tid p' p0 _ H0 Hm). exact Hmarks.
  - apply (critical_after_step _ (w_lock w) (w_lock w) tid p0 p' Hcrit H0).
    + split; [congruence|intros E; contradiction].
    + intros t _. reflexivity.
  - apply (no_raise_after_step _ tid p0 p' Hraise H0 Hr').
  - destruct Hser as [served [evs [sp [Hrun [Hinv [Hperm Hlock]]]]]].
    exists served, evs, sp. split; [exact Hrun|]. split; [exact Hinv|]. split.
    + rewrite <- Hperm. rewrite <- app_assoc. apply Permutation_app_head.
      symmetry. apply (flat_map_set_nth_less pending tid p' p0 _ d H0 Hpend).
    + destruct (w_lock w) as [h|]; [|exact Hlock].
      destruct Hlock as [now [p [r [s' [He [Hn [Hcs Hrest]]]]]]].
      exists now, p, r, s'. split; [exact He|]. split; [|split; assumption].
      rewrite nth_error_set_nth_neq; [exact Hn|]. congruence.
Qed.

(** Taking the lock. *)
Lemma lock_step (w : world) (tid : nat) (now : Q) :
  reachable_inv s0 n w ->
  nth_error (w_threads w) tid = Some (AtLock now) ->
  w_lock w = None ->
  reachable_inv s0 n
    (mkWorld (w_singer w) (Some tid) (w_clock w)
             (set_nth tid (AtGate now) (w_threads w)) (w_out w) (w_entered w ++ [now])).
Proof.
  intros [Hlen Hmarks Hcrit Hraise Hser] H0 Hfree.
  constructor; cbn [w_threads w_entered w_lock w_singer w_out].
  - rewrite length_set_nth. exact Hlen.
  - rewrite (Permutation_length
               (flat_map_set_nth_more entered_mark tid (AtGate now) (AtLock now) _ [tt]
                  H0 (Permutation_refl _))).
    rewrite length_app. cbn. lia.
  - apply (critical_after_step _ (w_lock w) (Some tid) tid _ _ Hcrit H0).
    + cbn. split; reflexivity.
    + intros t Ht. rewrite Hfree. split; congruence.
  - apply (no_raise_after_step _ tid _ _ Hraise H0). discriminate.
  - destruct Hser as [served [evs [sp [Hrun [Hinv [Hperm Hlock]]]]]].
    rewrite Hfree in Hlock. destruct Hlock as [He Hs].
    destruct (critical_section_total now sp Hinv) as [r [s' [Hcs _]]].
    exists served, evs, sp. split; [exact Hrun|]. split; [exact Hinv|]. split.
    + rewrite (flat_map_set_nth_same pending tid (AtGate now) (AtLock now) _ H0 eq_refl).
      exact Hperm.
    + exists now, (AtGate now), r, s'. rewrite He, Hs.
      split; [reflexivity|]. split; [|split; [exact Hcs|exact Hcs]].
      apply (nth_error_set_nth_eq _ _ _ _ H0).
Qed.

(** A statement inside the [with] block. *)
Lemma inside_step {A : Type} (w : world) (tid : nat) (p0 : pc) (m : M A) (k : A -> pc) :
  reachable_inv s0 n w ->
  nth_error (w_threads w) tid = Some p0 ->
  critical p0 = true ->
  (forall a, critical (k a) = true) ->
  (forall s, rest_of_block p0 s
             = match m s with
               | Ret a s1 => rest_of_block (k a) s1
               | Raise e s1 => Raise e s1
               end) ->
  reachable_inv s0 n (exec m k w tid).
Proof.
  intros [Hlen Hmarks Hcrit Hraise Hser] H0 Hc0 Hck Hrest.
  pose proof (proj1 (Hcrit tid p0 H0) Hc0) as Hheld.
  destruct Hser as [served [evs [sp [Hrun [Hinv [Hperm Hlock]]]]]].
  rewrite Hheld in Hlock.
  destruct Hlock as [now [p [r [s' [He [Hn [Hcs Hr]]]]]]].
  rewrite H0 in Hn. injection Hn as <-.
  rewrite Hrest in Hr. unfold exec.
  destruct (m (w_singer w)) as [a s1|e s1]; [|discriminate].
  destruct (critical_mark p0 Hc0) as [Hm0 [Hp0 _]].
  destruct (critical_mark (k a) (Hck a)) as [Hm1 [Hp1 Hr1]].
  constructor; cbn [goto with_singer w_threads w_entered w_lock w_singer w_out].
  - rewrite length_set_nth. exact Hlen.
  - rewrite (flat_map_set_nth_same entered_mark tid (k a) p0 _ H0); [exact Hmarks|].
    congruence.
  - apply (critical_after_step _ (w_lock w) (w_lock w) tid p0 (k a) Hcrit H0).
    + rewrite Hheld. split; [reflexivity|intros _; apply Hck].
    + intros t _. reflexivity.
  - apply (no_raise_after_step _ tid p0 (k a) Hraise H0 Hr1).
  - exists served, evs, sp. split; [exact Hrun|]. split; [exact Hinv|]. split.
    + rewrite (flat_map_set_nth_same pending tid (k a) p0 _ H0); [exact Hperm|].
      congruence.
    + rewrite Hheld. exists now, (k a), r, s'. split; [exact He|].
      split; [apply (nth_error_set_nth_eq _ _ _ _ H0)|]. split; assumption.
Qed.

(** Leaving the [with] block. *)
Lemma unlock_step (w : world) (tid : nat) (r : option locals) :
  reachable_inv s0 n w ->
  nth_error (w_threads w) tid = Some (AtUnlock r) ->
  reachable_inv s0 n
    (goto (with_lock w None) tid (match r with None => Returned | Some l => AtSpawn l end)).
Proof.
  intros [Hlen Hmarks Hcrit Hraise Hser] H0.
  pose proof (proj1 (Hcrit tid _ H0) eq_refl) as Hheld.
  destruct Hser as [served [evs [sp [Hrun [Hinv [Hperm Hlock]]]]]].
  rewrite Hheld in Hlock.
  destruct Hlock as [now [p [r' [s' [He [Hn [Hcs Hr]]]]]]].
  rewrite H0 in Hn. injection Hn as <-.
  cbn in Hr. unfold ret in Hr. injection Hr as <- <-.
  set (p' := match r with None => Returned | Some l => AtSpawn l end).
  assert (Hp' : pending p' = results_of r) by (destruct r; reflexivity).
  assert (Hc' : critical p' = false) by (destruct r; reflexivity).
  assert (Hm' : entered_mark p' = [tt]) by (destruct r; reflexivity).
  assert (Hr' : forall e, p' <> Raised e) by (destruct r; discriminate).
  constructor; cbn [goto with_lock w_threads w_entered w_lock w_singer w_out].
  - rewrite length_set_nth. exact Hlen.
  - rewrite (flat_map_set_nth_same entered_mark tid p' (AtUnlock r) _ H0 Hm'). exact Hmarks.
  - apply (critical_after_step _ (w_lock w) None tid _ p' Hcrit H0).
    + rewrite Hc'. split; discriminate.
    + intros t Ht. rewrite Hheld. split; [discriminate|congruence].
  - apply (no_raise_after_step _ tid _ p' Hraise H0 Hr').
  - destruct (critical_section_total now sp Hinv) as [r1 [s1 [Hcs1 Hinv1]]].
    rewrite Hcs in Hcs1. injection Hcs1 as <- <-.
    exists (served ++ [now]), (evs ++ [results_of r]), (w_singer w).
    split; [apply (run_presses_snoc served s0 evs sp now r _ Hrun Hcs)|].
    split; [exact Hinv1|]. split; [|split; [exact He|reflexivity]].
    rewrite concat_app. cbn [List.concat]. rewrite app_nil_r.
    rewrite <- Hperm.
    rewrite (flat_map_set_nth_more pending tid p' (AtUnlock r) _ (results_of r) H0).
    + rewrite <- app_assoc. apply Permutation_app_head. apply Permutation_app_comm.
    + rewrite Hp'. cbn. rewrite app_nil_r. reflexivity.
Qed.

End Reachable.

Lemma step_reachable (s0 : KeyboardSinger) (n : nat) (w w' : world) (tid : nat) (t : Q) :
  reachable_inv s0 n w -> step w tid t = Some w' -> reachable_inv s0 n w'.
Proof.
  intros Hinv Hstep. unfold step in Hstep.
  destruct (nth_error (w_threads w) tid) as [p|] eqn:H0; [|discriminate].
  destruct p as [|now|now|now| |song note|note|r|l|l| |e].
  - destruct (Qle_bool (w_clock w) t); [|discriminate]. injection Hstep as <-.
    apply (outside_step s0 n w tid AtClock (AtLock t) [] t (w_out w) Hinv H0);
      try reflexivity; try discriminate.
    symmetry. apply app_nil_r.
  - destruct (w_lock w) eqn:Hfree; [discriminate|]. injection Hstep as <-.
    apply (lock_step s0 n w tid now Hinv H0 Hfree).
  - injection Hstep as <-. apply (inside_step s0 n w tid (AtGate now) _ _ Hinv H0).
    + reflexivity.
    + intros [|]; reflexivity.
    + intros s. cbn. unfold critical_section, gate_closed, bind, get, ret.
      destruct (Qltb (now - last_trigger s) (gate_seconds s)); reflexivity.
  - injection Hstep as <-. apply (inside_step s0 n w tid (AtSetLast now) _ _ Hinv H0).
    + reflexivity.
    + intros a. reflexivity.
    + intros s. reflexivity.
  - injection Hstep as <-. apply (inside_step s0 n w tid AtReadNote _ _ Hinv H0).
    + reflexivity.
    + intros a. reflexivity.
    + intros s. cbn [rest_of_block]. unfold next_note, bind. cbv beta.
      destruct (read_note s) as [sn s1|e s1]; [|reflexivity].
      destruct (advance_index (fst sn) s1); reflexivity.
  - injection Hstep as <-. apply (inside_step s0 n w tid (AtAdvance song note) _ _ Hinv H0).
    + reflexivity.
    + intros a. reflexivity.
    + intros s. cbn [rest_of_block]. unfold bind. cbv beta.
      destruct (advance_index song s); reflexivity.
  - injection Hstep as <-. apply (inside_step s0 n w tid (AtPosition note) _ _ Hinv H0).
    + reflexivity.
    + intros a. reflexivity.
    + intros s. cbn [rest_of_block]. unfold bind. cbv beta.
      destruct (position note s); reflexivity.
  - injection Hstep as <-. apply (unlock_step s0 n w tid r Hinv H0).
  - injection Hstep as <-.
    apply (outside_step s0 n w tid (AtSpawn l) (AtPrint l) [Spawn (l_note l)]
             (w_clock w) _ Hinv H0); try reflexivity; discriminate.
  - injection Hstep as <-.
    apply (outside_step s0 n w tid (AtPrint l) Returned
             [Print (status_line (l_song l) (l_note l) (l_current_position l))]
             (w_clock w) _ Hinv H0); try reflexivity; discriminate.
  - discriminate.
  - discriminate.
Qed.

Lemma run_schedule_reachable (s0 : KeyboardSinger) (n : nat) (sched : list (nat * Q)) :
  forall w w', reachable_inv s0 n w -> run_schedule sched w = Some w' ->
               reachable_inv s0 n w'.
Proof.
  induction sched as [|[tid t] rest IH]; intros w w' Hinv Hrun; cbn in Hrun.
  - injection Hrun as <-. exact Hinv.
  - destruct (step w tid t) as [w1|] eqn:Hstep; [|discriminate].
    apply (IH w1 w' (step_reachable s0 n w w1 tid t Hinv Hstep) Hrun).
Qed.

(** ** The cursor along a serial run *)

Lemma spawned_perm (out out' : list event) :
  Permutation out out' -> Permutation (spawned out) (spawned out').
Proof.
  induction 1 as [|e l l' _ IH|e1 e2 l|l1 l2 l3 _ IH1 _ IH2]; cbn.
  - constructor.
  - destruct e; [constructor|]; exact IH.
  - destruct e1, e2; try reflexivity. apply perm_swap.
  - rewrite IH1. exact IH2.
Qed.

Lemma run_presses_cursor (served : list Q) :
  forall (s : KeyboardSinger) (song : Song) (evs : list (list event)) (sp : KeyboardSinger),
  py_getitem (songs s) (song_index s) = inr song ->
  0 <= note_index s < len (notes song) ->
  run_presses served s = Ret evs sp ->
  note_index sp = (note_index s + Z.of_nat (accepted_count evs)) mod len (notes song) /\
  spawned (List.concat evs) = cycle_notes song (note_index s) (accepted_count evs).
Proof.
  induction served as [|now rest IH]; intros s song evs sp Hsong Hi Hrun.
  - cbn in Hrun. injection Hrun as <- <-. cbn.
    rewrite Z.add_0_r, Z.mod_small by lia. split; reflexivity.
  - cbn [run_presses] in Hrun. unfold bind in Hrun.
    destruct (Qltb (now - last_trigger s) (gate_seconds s)) eqn:Hgate.
    + rewrite (handle_press_closed now s Hgate) in Hrun.
      destruct (run_presses rest s) as [evs1 s1|e s1] eqn:Hrest; [|discriminate].
      injection Hrun as <- <-.
      apply (IH s song evs1 s1 Hsong Hi Hrest).
    + destruct (handle_press_open now s song Hsong Hi Hgate) as [m [Hm Hp]].
      rewrite Hp in Hrun. set (L := len (notes song)) in *.
      destruct (run_presses rest (advanced s L now)) as [evs1 s1|e s1] eqn:Hrest;
        [|discriminate].
      injection Hrun as <- <-.
      destruct (IH (advanced s L now) song evs1 s1 Hsong
                   ltac:(cbn; apply Z.mod_pos_bound; lia) Hrest) as [Hidx Hsp].
      cbn [advanced note_index] in Hidx, Hsp. fold L in Hidx.
      unfold accepted_count in *. cbn [filter List.length List.concat app spawned].
      cbn [cycle_notes]. rewrite Hm. fold L. rewrite Hsp. split; [|reflexivity].
      rewrite Hidx. rewrite Z.add_mod_idemp_l by lia. f_equal. lia.
Qed.

(** ** Presses fired together against presses fired one by one *)

(** X20: [n] presses fired together, under any schedule that lets all of
    them return, leave the singer in the state, and send out the multiset of
    results, of [handle_press] applied one call after the other to the clock
    readings the presses took, in the order in which they entered the
    critical section; that order need not be the order of the readings.
    Every press enters once, the cursor moves once per accepted press, and
    the notes played are consecutive notes of the song, none skipped and none
    twice. *)
Theorem concurrent_presses_serialize (s0 : KeyboardSinger) (n : nat) (clock0 : Q)
    (sched : list (nat * Q)) (w : world) :
  inv s0 ->
  run_schedule sched (start_world s0 clock0 n) = Some w ->
  all_returned w ->
  List.length (w_entered w) = n /\
  w_lock w = None /\
  exists (evs : list (list event)) (song : Song),
    run_presses (w_entered w) s0 = Ret evs (w_singer w) /\
    Permutation (w_out w) (List.concat evs) /\
    py_getitem (songs s0) (song_index s0) = inr song /\
    note_index (w_singer w)
    = (note_index s0 + Z.of_nat (accepted_count evs)) mod len (notes song) /\
    Permutation (spawned (w_out w))
                (cycle_notes song (note_index s0) (accepted_count evs)).
Proof.
  intros Hinv Hrun Hdone.
  pose proof (run_schedule_reachable s0 n sched _ w
                (reachable_start s0 n clock0 Hinv) Hrun)
    as [Hlen Hmarks Hcrit Hraise Hser].
  unfold all_returned in Hdone.
  assert (Hmark : flat_map entered_mark (w_threads w) = repeat tt (List.length (w_threads w))).
  { clear - Hdone. induction Hdone as [|p l Hp _ IH]; [reflexivity|].
    subst p. cbn. rewrite IH. reflexivity. }
  assert (Hpend : flat_map pending (w_threads w) = []).
  { clear - Hdone. induction Hdone as [|p l Hp _ IH]; [reflexivity|].
    subst p. cbn. exact IH. }
  assert (Hfree : w_lock w = None).
  { destruct (w_lock w) as [h|] eqn:Hl; [|reflexivity].
    destruct Hser as [_ [_ [_ [_ [_ [_ [_ [p [_ [_ [_ [Hn _]]]]]]]]]]]].
    pose proof (proj2 (Hcrit h p Hn) eq_refl) as Hc.
    rewrite Forall_forall in Hdone.
    rewrite (Hdone p (nth_error_In _ _ Hn)) in Hc. discriminate. }
  split; [rewrite Hmarks, Hmark, repeat_length; exact Hlen|].
  split; [exact Hfree|].
  destruct Hser as [served [evs [sp [Hserial [_ [Hperm Hlock]]]]]].
  rewrite Hfree in Hlock. destruct Hlock as [-> ->].
  rewrite Hpend, app_nil_r in Hperm.
  destruct Hinv as [_ [song [Hsong Hi]]].
  destruct (run_presses_cursor _ s0 song evs _ Hsong Hi Hserial) as [Hidx Hsp].
  exists evs, song. split; [exact Hserial|]. split; [exact Hperm|].
  split; [exact Hsong|]. split; [exact Hidx|].
  rewrite <- Hsp. apply spawned_perm. exact Hperm.
Qed.

Lemma concurrent_presses_serialize_witness :
  exists evs,
    run_presses [2%Q; 1%Q] ungated = Ret evs (mkSinger [twinkle] 0 1 0 2) /\
    Permutation (dispatch (mkLocals 60 twinkle 1)) (List.concat evs).
Proof.
  destruct (concurrent_presses_serialize ungated 2 0 overtaking_schedule overtaken_world)
    as [_ [_ [evs [song [Hrun [Hperm _]]]]]].
  - split; [cbn; lia|]. exists twinkle. split; [reflexivity|cbn; lia].
  - reflexivity.
  - repeat constructor.
  - exists evs. split; [exact Hrun|exact Hperm].
Defined.



(** * Further properties of the core *)

Lemma py_getitem_nil {A} (i : Z) : py_getitem (@nil A) i = inl IndexError.
Proof.
  unfold py_getitem. cbv zeta. cbn [List.length Z.of_nat].
  destruct (i <? 0) eqn:E.
  - rewrite Z.add_0_r, E. reflexivity.
  - destruct (Z.leb_spec 0 i) as [H|H]; [rewrite orb_true_r; reflexivity|].
    apply Z.ltb_ge in E. lia.
Qed.

Lemma py_getitem_len {A} (l : list A) (i : Z) (x : A) :
  py_getitem l i = inr x -> 0 < len l.
Proof.
  destruct l as [|y l]; [rewrite py_getitem_nil; discriminate|].
  intros _. apply len_pos. discriminate.
Qed.

Lemma py_getitem_error {A} (l : list A) (i : Z) (e : exn) :
  py_getitem l i = inl e -> e = IndexError.
Proof.
  unfold py_getitem. cbv zeta.
  destruct (_ || _); [congruence|].
  destruct (nth_error _ _); congruence.
Qed.

Ltac step_m :=
  cbv beta iota; cbn [songs song_index note_index gate_seconds last_trigger fst snd].

(** Every way a press can end. *)
Lemma handle_press_cases (now : Q) (s : KeyboardSinger) :
  match handle_press now s with
  | Ret ev s' =>
      (Qltb (now - last_trigger s) (gate_seconds s) = true /\ ev = [] /\ s' = s) \/
      (Qltb (now - last_trigger s) (gate_seconds s) = false /\
       exists song n,
         py_getitem (songs s) (song_index s) = inr song /\
         py_getitem (notes song) (note_index s) = inr n /\
         s' = advanced s (len (notes song)) now /\
         ev = [Spawn n;
               Print (status_line song n
                        (py_or ((note_index s + 1) mod len (notes song))
                               (len (notes song))))])
  | Raise e s' =>
      Qltb (now - last_trigger s) (gate_seconds s) = false /\
      e = IndexError /\ s' = triggered s now /\
      (py_getitem (songs s) (song_index s) = inl IndexError \/
       exists song, py_getitem (songs s) (song_index s) = inr song /\
                    py_getitem (notes song) (note_index s) = inl IndexError)
  end.
Proof.
  unfold handle_press, critical_section, accepted_press, gate_closed, position,
    next_note, read_note, advance_index, current_song,
    set_last_trigger, set_note_index, bind, get, ret, lift.
  destruct (Qltb (now - last_trigger s) (gate_seconds s)) eqn:Hgate; step_m.
  - left. repeat split; reflexivity.
  - destruct (py_getitem (songs s) (song_index s)) as [e|song] eqn:Hsong; step_m.
    + rewrite (py_getitem_error _ _ _ Hsong).
      split; [reflexivity|]. split; [reflexivity|]. split; [reflexivity|].
      left. reflexivity.
    + destruct (py_getitem (notes song) (note_index s)) as [e|n] eqn:Hn; step_m.
      * pose proof (py_getitem_error _ _ _ Hn) as ->.
        split; [reflexivity|]. split; [reflexivity|]. split; [reflexivity|].
        right. exists song. split; [reflexivity|exact Hn].
      * pose proof (py_getitem_len _ _ _ Hn) as HL.
        unfold py_mod. destruct (Z.eqb_spec (len (notes song)) 0) as [E|_]; [lia|].
        step_m. rewrite Hsong. step_m.
        right. split; [reflexivity|]. exists song, n.
        split; [reflexivity|]. split; [exact Hn|]. split; reflexivity.
Qed.

Lemma py_max0_ge0 (g : Q) : (0 <= py_max0 g)%Q.
Proof.
  unfold py_max0. destruct (Qltb 0 g) eqn:E.
  - apply Qlt_le_weak. apply Qltb_lt. exact E.
  - apply Qle_refl.
Qed.

Lemma run_presses_frame (nows : list Q) : forall s : KeyboardSinger,
  let s' := final_state (run_presses nows s) in
  songs s' = songs s /\ song_index s' = song_index s /\
  gate_seconds s' = gate_seconds s.
Proof.
  cbv zeta.
  induction nows as [|now rest IH]; intros s; [repeat split; reflexivity|].
  cbn [run_presses]. unfold bind. cbv beta.
  pose proof (handle_press_cases now s) as Hc.
  destruct (handle_press now s) as [ev s1|e s1].
  - specialize (IH s1).
    assert (Hs1 : songs s1 = songs s /\ song_index s1 = song_index s /\
                  gate_seconds s1 = gate_seconds s).
    { destruct Hc as [[_ [_ ->]]|[_ [song [n [_ [_ [-> _]]]]]]]; repeat split; reflexivity. }
    destruct (run_presses rest s1) as [evs s2|e s2]; unfold ret;
      cbv beta iota; cbn [final_state] in *;
      destruct IH as [H1 [H2 H3]]; destruct Hs1 as [H4 [H5 H6]];
      repeat split; congruence.
  - destruct Hc as [_ [_ [-> _]]]. repeat split; reflexivity.
Qed.

(** X1: no run of presses, and no restart, ever changes the song list, the
    selected song or the gate, also when a press raises. *)
Theorem presses_keep_songs_and_gate (nows : list Q) (s : KeyboardSinger) :
  let s' := final_state (run_presses nows s) in
  (songs s' = songs s /\ song_index s' = song_index s /\
   gate_seconds s' = gate_seconds s) /\
  (songs (final_state (restart s)) = songs s /\
   song_index (final_state (restart s)) = song_index s /\
   gate_seconds (final_state (restart s)) = gate_seconds s).
Proof.
  cbv zeta. split; [apply run_presses_frame|repeat split; reflexivity].
Qed.

(** X2: in a serial run the accepted presses are spaced by the gate: each one
    comes at least [gate_seconds] after the one accepted before it (the first
    after the initial last trigger time), and the last trigger time at the end
    is the clock reading of the last accepted press. *)
Theorem accepted_presses_are_spaced (nows : list Q) (s : KeyboardSinger)
    (evs : list (list event)) (sp : KeyboardSinger) :
  run_presses nows s = Ret evs sp ->
  gate_open_all (gate_seconds s) (last_trigger s) (accepted_times nows evs) /\
  last_trigger sp = last_time (last_trigger s) (accepted_times nows evs).
Proof.
  revert s evs sp. induction nows as [|now rest IH]; intros s evs sp Hrun.
  - cbn in Hrun. injection Hrun as <- <-. split; [exact I|reflexivity].
  - cbn [run_presses] in Hrun. unfold bind in Hrun.
    pose proof (handle_press_cases now s) as Hc.
    destruct (handle_press now s) as [ev s1|e s1]; [|discriminate].
    destruct (run_presses rest s1) as [evs1 s2|e s2] eqn:Hrest; [|discriminate].
    injection Hrun as <- <-. destruct (IH s1 evs1 s2 Hrest) as [Hopen Hlast].
    destruct Hc as [[_ [-> ->]]|[Hgate [song [n [_ [_ [-> ->]]]]]]].
    + cbn [accepted_times]. split; assumption.
    + cbn [accepted_times gate_open_all last_time advanced gate_seconds last_trigger] in *.
      split; [|exact Hlast]. split; [|exact Hopen]. apply Qltb_ge. exact Hgate.
Qed.

Lemma accepted_presses_are_spaced_witness :
  gate_open_all 1 0 [1%Q; 2%Q] /\
  last_trigger (mkSinger [twinkle] 0 2 1 2) = 2%Q.
Proof.
  apply (accepted_presses_are_spaced [0%Q; 1 # 2; 1%Q; 3 # 2; 2%Q]
           (mkSinger [twinkle] 0 0 1 0)
           [[]; []; [Spawn 60; Print "song='Twinkle' note=60 index=1/4"%string]; [];
            [Spawn 60; Print "song='Twinkle' note=60 index=2/4"%string]]
           (mkSinger [twinkle] 0 2 1 2)).
  reflexivity.
Defined.

(** X3: a press whose clock reading lies before the last trigger time is
    debounced whatever gate the singer was built with, a gate of zero
    included, and changes nothing. *)
Theorem press_before_last_trigger_is_debounced (songs0 : list Song) (gate : Q)
    (s0 s : KeyboardSinger) (now : Q) :
  init songs0 gate = inr s0 ->
  gate_seconds s = gate_seconds s0 ->
  (now < last_trigger s)%Q ->
  handle_press now s = Ret [] s.
Proof.
  intros Hinit Hg Hnow. apply handle_press_closed. apply Qltb_lt.
  destruct songs0; [discriminate|]. cbn in Hinit. injection Hinit as <-.
  rewrite Hg. cbn [gate_seconds].
  apply Qlt_le_trans with (y := 0%Q); [|apply py_max0_ge0].
  unfold Qminus. rewrite <- (Qplus_opp_r (last_trigger s)).
  apply Qplus_lt_l. exact Hnow.
Qed.

Lemma press_before_last_trigger_is_debounced_witness :
  handle_press 1 (mkSinger [twinkle] 0 1 0 2) = Ret [] (mkSinger [twinkle] 0 1 0 2).
Proof.
  apply (press_before_last_trigger_is_debounced [twinkle] 0
           (mkSinger [twinkle] 0 0 0 0) (mkSinger [twinkle] 0 1 0 2) 1);
    reflexivity.
Defined.

(** X4: construction takes a song without notes, and every press on it that
    passes the gate raises [IndexError] after the last trigger time is already
    set: nothing is played or printed, the cursor stays, and presses within
    the gate after it are debounced. *)
Theorem press_on_empty_song_raises (song : Song) (rest : list Song) (gate : Q)
    (s0 : KeyboardSinger) (now : Q) :
  notes song = [] ->
  init (song :: rest) gate = inr s0 ->
  ~ (now - last_trigger s0 < gate_seconds s0)%Q ->
  handle_press now s0 = Raise IndexError (triggered s0 now) /\
  note_index (triggered s0 now) = 0 /\
  forall now', (now' - now < gate_seconds s0)%Q ->
               handle_press now' (triggered s0 now) = Ret [] (triggered s0 now).
Proof.
  intros Hnotes Hinit Hgate. cbn in Hinit. injection Hinit as <-.
  apply Qltb_ge in Hgate. split; [|split; [reflexivity|]].
  - pose proof (handle_press_cases now
                  (mkSinger (song :: rest) 0 0 (py_max0 gate) 0)) as Hc.
    destruct (handle_press now _) as [ev s1|e s1].
    + destruct Hc as [[Hclosed _]|[_ [sg [n [Hsg [Hn _]]]]]]; [congruence|].
      cbn [songs song_index note_index] in Hsg, Hn.
      rewrite py_getitem_head in Hsg. injection Hsg as <-.
      rewrite Hnotes, py_getitem_nil in Hn. discriminate.
    + destruct Hc as [_ [-> [-> _]]]. reflexivity.
  - intros now' Hnow'. apply handle_press_closed. apply Qltb_lt. exact Hnow'.
Qed.

Lemma press_on_empty_song_raises_witness :
  handle_press 5 (mkSinger [mkSong "silence" []] 0 0 (4 # 10) 0)
  = Raise IndexError (mkSinger [mkSong "silence" []] 0 0 (4 # 10) 5).
Proof.
  apply (press_on_empty_song_raises (mkSong "silence" []) [] (4 # 10)
           (mkSinger [mkSong "silence" []] 0 0 (4 # 10) 0) 5).
  - reflexivity.
  - reflexivity.
  - vm_compute. discriminate.
Defined.

(** X5: [restart] puts the cursor at 0 and leaves the rest, the last trigger
    time included: the next press is debounced or accepted as it would have
    been without the restart, and when accepted it plays the first note of the
    song and reports position 1. *)
Theorem restart_then_press (s : KeyboardSinger) (now : Q) :
  inv s ->
  exists song n0,
    py_getitem (songs s) (song_index s) = inr song /\
    py_getitem (notes song) 0 = inr n0 /\
    restart s = Ret tt (rewound s) /\
    ((now - last_trigger s < gate_seconds s)%Q ->
       handle_press now s = Ret [] s /\
       handle_press now (rewound s) = Ret [] (rewound s)) /\
    (~ (now - last_trigger s < gate_seconds s)%Q ->
       handle_press now (rewound s)
       = Ret [Spawn n0; Print (status_line song n0 1)]
             (advanced (rewound s) (len (notes song)) now)).
Proof.
  intros [_ [song [Hsong Hi]]].
  assert (H0 : 0 <= 0 < len (notes song)) by lia.
  destruct (py_getitem_in_range _ _ H0) as [n0 [Hn0 _]].
  exists song, n0. split; [exact Hsong|]. split; [exact Hn0|].
  split; [reflexivity|]. split.
  - intros Hgate. apply Qltb_lt in Hgate.
    split; apply handle_press_closed; exact Hgate.
  - intros Hgate. apply Qltb_ge in Hgate.
    destruct (handle_press_open now (rewound s) song Hsong H0 Hgate) as [m [Hm Hp]].
    cbn [rewound note_index] in Hm. rewrite Hn0 in Hm. injection Hm as <-.
    exact Hp.
Qed.

Lemma restart_then_press_witness :
  handle_press 9 (rewound (mkSinger [twinkle] 0 3 (4 # 10) 1))
  = Ret [Spawn 60; Print "song='Twinkle' note=60 index=1/4"%string]
        (mkSinger [twinkle] 0 1 (4 # 10) 9).
Proof.
  destruct (restart_then_press (mkSinger [twinkle] 0 3 (4 # 10) 1) 9)
    as [song [n0 [Hsong [Hn0 [_ [_ Hacc]]]]]].
  - split; [cbn; lia|]. exists twinkle. split; [reflexivity|cbn; lia].
  - vm_compute in Hsong. injection Hsong as <-.
    vm_compute in Hn0. injection Hn0 as <-.
    apply Hacc. vm_compute. discriminate.
Defined.

(** * Further properties of texts *)

Lemma append_assoc (s t u : string) : ((s ++ t) ++ u = s ++ (t ++ u))%string.
Proof. induction s as [|c s IH]; cbn; [reflexivity|]. rewrite IH. reflexivity. Qed.

Lemma append_nil_r (s : string) : (s ++ "" = s)%string.
Proof. induction s as [|c s IH]; cbn; [reflexivity|]. rewrite IH. reflexivity. Qed.

Lemma string_forall_impl (P Q : ascii -> bool) (s : string) :
  (forall c, P c = true -> Q c = true) ->
  string_forall P s = true -> string_forall Q s = true.
Proof.
  intros HPQ. induction s as [|c s IH]; cbn; [reflexivity|].
  intros H. apply andb_true_iff in H. destruct H as [Hc Hs].
  rewrite (HPQ c Hc), (IH Hs). reflexivity.
Qed.

Lemma string_forall_app (P : ascii -> bool) (s t : string) :
  string_forall P (s ++ t) = string_forall P s && string_forall P t.
Proof.
  induction s as [|c s IH]; cbn; [reflexivity|].
  rewrite IH, andb_assoc. reflexivity.
Qed.

Lemma repr_char_plain (c : ascii) :
  plain_char c = true -> repr_char "'"%char c = String c EmptyString.
Proof.
  destruct c as [b0 b1 b2 b3 b4 b5 b6 b7].
  destruct b0, b1, b2, b3, b4, b5, b6, b7; intros H;
    first [discriminate H | reflexivity].
Qed.

Lemma plain_char_not_quote (c : ascii) :
  plain_char c = true -> Ascii.eqb "'"%char c = false.
Proof.
  unfold plain_char. intros H.
  apply andb_true_iff in H. destruct H as [H _].
  apply andb_true_iff in H. destruct H as [_ H].
  rewrite Ascii.eqb_sym. apply negb_true_iff. exact H.
Qed.

Lemma contains_quote_plain (s : string) :
  string_forall plain_char s = true -> contains "'"%char s = false.
Proof.
  induction s as [|c s IH]; cbn [contains string_forall]; [reflexivity|].
  intros H. apply andb_true_iff in H. destruct H as [Hc Hs].
  rewrite (plain_char_not_quote c Hc), (IH Hs). reflexivity.
Qed.

Lemma repr_body_plain (s : string) :
  string_forall plain_char s = true -> repr_body "'"%char s = s.
Proof.
  induction s as [|c s IH]; cbn [repr_body string_forall]; [reflexivity|].
  intros H. apply andb_true_iff in H. destruct H as [Hc Hs].
  change (repr_char "'"%char c ++ repr_body "'"%char s = String c s)%string.
  rewrite (repr_char_plain c Hc), (IH Hs). reflexivity.
Qed.

(** X6: for a song name of printable characters without single quote and
    backslash, the status line shows the name as it is between single quotes:
    [song='<name>' note=<id> index=<position>/<length>]. *)
Theorem status_line_of_plain_name (song : Song) (note current_position : Z) :
  string_forall plain_char (name song) = true ->
  py_repr (name song) = String "'"%char (name song ++ "'")%string /\
  status_line song note current_position
  = ("song='" ++ name song ++ "' note=" ++ py_str_int note
     ++ " index=" ++ py_str_int current_position ++ "/"
     ++ py_str_int (len (notes song)))%string.
Proof.
  intros H.
  pose proof (contains_quote_plain _ H) as Hq.
  pose proof (repr_body_plain _ H) as Hb.
  assert (Hr : py_repr (name song) = String "'"%char (name song ++ "'")%string).
  { unfold py_repr. rewrite Hq. cbn [andb]. rewrite Hb. reflexivity. }
  split; [exact Hr|].
  unfold status_line. rewrite Hr. cbn [String.append].
  rewrite append_assoc. reflexivity.
Qed.

Lemma status_line_of_plain_name_witness :
  status_line (mkSong "Ascending C Major" [60; 62; 64]) 62 2
  = "song='Ascending C Major' note=62 index=2/3"%string.
Proof.
  apply (status_line_of_plain_name (mkSong "Ascending C Major" [60; 62; 64]) 62 2).
  reflexivity.
Defined.

(** ** Integers as text and back *)

Lemma of_uint_acc_value (d : Decimal.uint) : forall acc : positive,
  Z.pos (Pos.of_uint_acc d acc) = uint_value d (Z.pos acc).
Proof.
  induction d as [|d IH|d IH|d IH|d IH|d IH|d IH|d IH|d IH|d IH|d IH]; intros acc;
    cbn [Pos.of_uint_acc uint_value]; [reflexivity|..];
    rewrite IH; f_equal; lia.
Qed.

Lemma of_uint_value (d : Decimal.uint) : Z.of_uint d = uint_value d 0.
Proof.
  unfold Z.of_uint.
  induction d as [|d IH|d IH|d IH|d IH|d IH|d IH|d IH|d IH|d IH|d IH];
    cbn [Pos.of_uint uint_value Z.of_N]; [reflexivity|exact IH|..];
    rewrite of_uint_acc_value; reflexivity.
Qed.

Lemma int_digits_of_uint (d : Decimal.uint) : forall (acc : Z) (after_digit : bool),
  d <> Decimal.Nil \/ after_digit = true ->
  int_digits (NilEmpty.string_of_uint d) acc after_digit = Some (uint_value d acc).
Proof.
  induction d as [|d IH|d IH|d IH|d IH|d IH|d IH|d IH|d IH|d IH|d IH];
    intros acc b H.
  - destruct H as [H | Hb]; [congruence|subst b; reflexivity].
  - cbn. apply IH. right. reflexivity.
  - cbn. apply IH. right. reflexivity.
  - cbn. apply IH. right. reflexivity.
  - cbn. apply IH. right. reflexivity.
  - cbn. apply IH. right. reflexivity.
  - cbn. apply IH. right. reflexivity.
  - cbn. apply IH. right. reflexivity.
  - cbn. apply IH. right. reflexivity.
  - cbn. apply IH. right. reflexivity.
  - cbn. apply IH. right. reflexivity.
Qed.

Lemma int_digits_of_uint_zero (d : Decimal.uint) :
  int_digits (NilZero.string_of_uint d) 0 false = Some (uint_value d 0).
Proof.
  destruct d; try (apply int_digits_of_uint; left; discriminate). reflexivity.
Qed.

Lemma count_digits_of_uint (d : Decimal.uint) :
  count_digits (NilEmpty.string_of_uint d) = Decimal.nb_digits d.
Proof.
  induction d as [|d IH|d IH|d IH|d IH|d IH|d IH|d IH|d IH|d IH|d IH];
    cbn [NilEmpty.string_of_uint Decimal.nb_digits]; [reflexivity|..];
    (change (count_digits (String ?c ?s)) with (S (count_digits s)) || idtac);
    cbn [count_digits]; rewrite <- IH; reflexivity.
Qed.

Lemma count_digits_of_uint_zero (d : Decimal.uint) :
  d <> Decimal.Nil ->
  count_digits (NilZero.string_of_uint d) = Decimal.nb_digits d.
Proof.
  intros Hd. rewrite <- count_digits_of_uint. destruct d; [congruence|..]; reflexivity.
Qed.

Lemma int_literal_of_uint (d : Decimal.uint) :
  d <> Decimal.Nil ->
  Z.of_nat (Decimal.nb_digits d) <= int_max_str_digits ->
  int_literal (NilZero.string_of_uint d) = Some (uint_value d 0).
Proof.
  intros Hd Hlim. unfold int_literal.
  rewrite int_digits_of_uint_zero, (count_digits_of_uint_zero d Hd).
  rewrite (proj2 (Z.leb_le _ _) Hlim). reflexivity.
Qed.

Lemma uint_value_lower (d : Decimal.uint) : forall acc : Z,
  0 <= acc -> acc * 10 ^ Z.of_nat (Decimal.nb_digits d) <= uint_value d acc.
Proof.
  induction d as [|d IH|d IH|d IH|d IH|d IH|d IH|d IH|d IH|d IH|d IH];
    intros acc Hacc; cbn [Decimal.nb_digits uint_value].
  1: { rewrite Z.pow_0_r. lia. }
  all: rewrite Nat2Z.inj_succ, Z.pow_succ_r by lia.
  all: pose proof (Z.pow_nonneg 10 (Z.of_nat (Decimal.nb_digits d)) ltac:(lia)) as Hp.
  all: match goal with
       | |- _ <= uint_value _ ?a => specialize (IH a ltac:(lia))
       end.
  all: nia.
Qed.

Lemma to_uint_normal (p : positive) :
  Decimal.unorm (Pos.to_uint p) = Pos.to_uint p.
Proof.
  rewrite <- DecimalPos.Unsigned.to_of, DecimalPos.Unsigned.of_to. reflexivity.
Qed.

(** A number written without a zero in front is at least the power of ten of
    its digits but one. *)
Lemma normal_lower (d : Decimal.uint) :
  Decimal.unorm d = d -> d <> Decimal.zero ->
  10 ^ (Z.of_nat (Decimal.nb_digits d) - 1) <= uint_value d 0.
Proof.
  intros Hn Hz.
  destruct d as [|d|d|d|d|d|d|d|d|d|d]; [discriminate Hn|..].
  1: { exfalso. rewrite DecimalFacts.unorm_D0 in Hn.
       destruct d as [|d|d|d|d|d|d|d|d|d|d]; [apply Hz; reflexivity|..];
         match type of Hn with
         | Decimal.unorm ?u = _ =>
             pose proof (DecimalFacts.nb_digits_unorm u ltac:(discriminate)) as Hle;
             rewrite Hn in Hle; cbn [Decimal.nb_digits] in Hle; lia
         end. }
  all: cbn [Decimal.nb_digits uint_value];
    rewrite Nat2Z.inj_succ;
    replace (Z.succ (Z.of_nat (Decimal.nb_digits d)) - 1)
      with (Z.of_nat (Decimal.nb_digits d)) by lia;
    match goal with
    | |- _ <= uint_value ?u ?a => pose proof (uint_value_lower u a ltac:(lia)) as Hl
    end;
    pose proof (Z.pow_nonneg 10 (Z.of_nat (Decimal.nb_digits d)) ltac:(lia)) as Hp;
    nia.
Qed.

Lemma digits_of_pos (p : positive) (k : Z) :
  0 <= k -> Z.pos p < 10 ^ k -> Z.of_nat (Decimal.nb_digits (Pos.to_uint p)) <= k.
Proof.
  intros Hk Hp.
  pose proof (normal_lower (Pos.to_uint p) (to_uint_normal p)
                (DecimalPos.Unsigned.to_uint_nonzero p)) as Hl.
  rewrite <- of_uint_value in Hl. unfold Z.of_uint in Hl.
  rewrite DecimalPos.Unsigned.of_to in Hl. cbn [Z.of_N] in Hl.
  assert (H : 10 ^ (Z.of_nat (Decimal.nb_digits (Pos.to_uint p)) - 1) < 10 ^ k) by lia.
  apply Z.pow_lt_mono_r_iff in H; lia.
Qed.

Lemma string_of_uint_decimal (d : Decimal.uint) :
  string_forall decimal_char (NilEmpty.string_of_uint d) = true.
Proof.
  induction d as [|d IH|d IH|d IH|d IH|d IH|d IH|d IH|d IH|d IH|d IH];
    cbn [NilEmpty.string_of_uint string_forall]; [reflexivity|..];
    rewrite IH; reflexivity.
Qed.

(** The text of an integer: digits and a minus sign, and not empty. *)
Lemma py_str_int_decimal (n : Z) :
  string_forall decimal_char (py_str_int n) = true /\
  is_empty (py_str_int n) = false.
Proof.
  unfold py_str_int. destruct (Z.to_int n) as [d|d]; cbn [NilZero.string_of_int].
  - destruct d; split; try reflexivity;
      apply (string_of_uint_decimal (_ d)) || apply string_of_uint_decimal.
  - split; [|reflexivity]. cbn [string_forall].
    destruct d; try reflexivity;
      apply (string_of_uint_decimal (_ d)) || apply string_of_uint_decimal.
Qed.

Lemma decimal_char_not_space (c : ascii) :
  decimal_char c = true -> is_space c = false.
Proof.
  destruct c as [b0 b1 b2 b3 b4 b5 b6 b7].
  destruct b0, b1, b2, b3, b4, b5, b6, b7; intros H;
    first [discriminate H | reflexivity].
Qed.

Lemma decimal_char_not_comma (c : ascii) :
  decimal_char c = true -> Ascii.eqb c ","%char = false.
Proof.
  destruct c as [b0 b1 b2 b3 b4 b5 b6 b7].
  destruct b0, b1, b2, b3, b4, b5, b6, b7; intros H;
    first [discriminate H | reflexivity].
Qed.

Lemma lstrip_no_space (s : string) :
  string_forall (fun c => negb (is_space c)) s = true -> lstrip s = s.
Proof.
  destruct s as [|c s]; cbn [lstrip string_forall]; [reflexivity|].
  intros H. apply andb_true_iff in H. destruct H as [Hc _].
  apply negb_true_iff in Hc. rewrite Hc. reflexivity.
Qed.

Lemma rstrip_no_space (s : string) :
  string_forall (fun c => negb (is_space c)) s = true -> rstrip s = s.
Proof.
  induction s as [|c s IH]; cbn [rstrip string_forall]; [reflexivity|].
  intros H. apply andb_true_iff in H. destruct H as [Hc Hs].
  apply negb_true_iff in Hc. rewrite (IH Hs), Hc.
  destruct s; reflexivity.
Qed.

Lemma py_strip_decimal (s : string) :
  string_forall decimal_char s = true /\ is_empty s = false -> py_strip s = s.
Proof.
  intros [H _].
  assert (Hn : string_forall (fun c => negb (is_space c)) s = true).
  { apply (string_forall_impl decimal_char); [|exact H].
    intros c Hc. rewrite (decimal_char_not_space c Hc). reflexivity. }
  unfold py_strip. rewrite (lstrip_no_space s Hn). apply rstrip_no_space. exact Hn.
Qed.

Lemma py_int_of_uint (d : Decimal.uint) :
  py_int (NilZero.string_of_uint d) = int_literal (NilZero.string_of_uint d).
Proof. destruct d; reflexivity. Qed.

Lemma py_int_py_str_int (n : Z) :
  within_digit_limit n -> py_int (py_str_int n) = Some n.
Proof.
  unfold within_digit_limit, py_str_int. intros Hlim.
  assert (Hk : 0 <= int_max_str_digits) by (unfold int_max_str_digits; lia).
  destruct n as [|p|p]; cbn [Z.to_int NilZero.string_of_int Z.abs] in *.
  - reflexivity.
  - rewrite py_int_of_uint.
    rewrite (int_literal_of_uint _ (DecimalPos.Unsigned.to_uint_nonnil p)
               (digits_of_pos p _ Hk Hlim)).
    rewrite <- of_uint_value. unfold Z.of_uint.
    rewrite DecimalPos.Unsigned.of_to. reflexivity.
  - cbn [py_int].
    rewrite (int_literal_of_uint _ (DecimalPos.Unsigned.to_uint_nonnil p)
               (digits_of_pos p _ Hk Hlim)).
    rewrite <- of_uint_value. unfold Z.of_uint.
    rewrite DecimalPos.Unsigned.of_to. reflexivity.
Qed.

(** X7: within the digit limit of [str] and [int], for an integer below
    [10 ** 4300] in absolute value, the decimal text that [str] gives is read
    back by [int] as the same integer, so a note shown in a status line can be
    given back in an inline song. *)
Theorem int_of_str_round_trip (n : Z) :
  within_digit_limit n ->
  py_int (py_str_int n) = Some n /\
  parse_notes [py_str_int n] = inr [n].
Proof.
  intros Hlim. split; [apply py_int_py_str_int; exact Hlim|].
  cbn [parse_notes].
  assert (Hs : py_strip (py_str_int n) = py_str_int n).
  { apply py_strip_decimal. apply py_str_int_decimal. }
  rewrite Hs. rewrite (proj2 (py_str_int_decimal n)).
  rewrite (py_int_py_str_int n Hlim). reflexivity.
Qed.

Lemma int_of_str_round_trip_witness :
  py_int (py_str_int (-127)) = Some (-127) /\
  parse_notes [py_str_int (-127)] = inr [-127].
Proof.
  apply (int_of_str_round_trip (-127)).
  unfold within_digit_limit. vm_compute. reflexivity.
Defined.

(** ** Inline songs *)

Lemma py_partition_found (nm body : string) :
  contains ":"%char nm = false ->
  py_partition ":" (nm ++ String ":"%char body) = (nm, ":"%string, body).
Proof.
  induction nm as [|c nm IH]; cbn [contains String.append py_partition]; intros H.
  - reflexivity.
  - apply orb_false_iff in H. destruct H as [Hc Hnm].
    rewrite Ascii.eqb_sym, Hc, (IH Hnm). reflexivity.
Qed.

Lemma py_partition_absent (nm : string) :
  contains ":"%char nm = false ->
  py_partition ":" nm = (nm, EmptyString, EmptyString).
Proof.
  induction nm as [|c nm IH]; cbn [contains py_partition]; intros H.
  - reflexivity.
  - apply orb_false_iff in H. destruct H as [Hc Hnm].
    rewrite Ascii.eqb_sym, Hc, (IH Hnm). reflexivity.
Qed.

Lemma py_split_nonempty (sep : ascii) (s : string) : py_split sep s <> [].
Proof.
  destruct s as [|c s]; cbn [py_split]; [discriminate|].
  destruct (Ascii.eqb c sep); [discriminate|].
  destruct (py_split sep s); discriminate.
Qed.

Lemma py_split_app (item s : string) :
  string_forall decimal_char item = true ->
  py_split "," (item ++ s)
  = match py_split "," s with
    | [] => [item]
    | h :: t => (item ++ h)%string :: t
    end.
Proof.
  induction item as [|c item IH]; cbn [String.append string_forall]; intros H.
  - pose proof (py_split_nonempty "," s) as Hne.
    destruct (py_split "," s); [congruence|reflexivity].
  - apply andb_true_iff in H. destruct H as [Hc Hitem].
    cbn [py_split]. rewrite (decimal_char_not_comma c Hc), (IH Hitem).
    destruct (py_split "," s); reflexivity.
Qed.

Lemma py_split_concat (items : list string) :
  items <> [] ->
  Forall (fun item => string_forall decimal_char item = true) items ->
  py_split "," (String.concat "," items) = items.
Proof.
  induction items as [|x [|y l] IH]; intros Hne Hall; [congruence| |].
  - cbn [String.concat]. inversion Hall; subst.
    rewrite <- (append_nil_r x) at 1. rewrite py_split_app by assumption.
    cbn. rewrite append_nil_r. reflexivity.
  - inversion Hall; subst.
    change (String.concat "," (x :: y :: l))
      with (x ++ "," ++ String.concat "," (y :: l))%string.
    rewrite py_split_app by assumption.
    change (py_split "," ("," ++ String.concat "," (y :: l)))
      with (EmptyString :: py_split "," (String.concat "," (y :: l))).
    rewrite IH by (assumption || discriminate).
    rewrite append_nil_r. reflexivity.
Qed.

Lemma parse_notes_of_texts (ns : list Z) :
  Forall within_digit_limit ns ->
  parse_notes (map py_str_int ns) = inr ns.
Proof.
  induction 1 as [|n ns Hn _ IH]; cbn [map parse_notes]; [reflexivity|].
  rewrite (py_strip_decimal _ (py_str_int_decimal n)).
  rewrite (proj2 (py_str_int_decimal n)), (py_int_py_str_int n Hn), IH. reflexivity.
Qed.

(** X8: an inline song text written as [name:n1,n2,...] from a name (not
    empty, without colon and without white space at its ends) and a non-empty
    list of notes, each below [10 ** 4300] in absolute value so that [str]
    and [int] take it, parses back to the song of that name with those
    notes. *)
Theorem inline_song_round_trip (nm : string) (ns : list Z) :
  contains ":"%char nm = false ->
  py_strip nm = nm ->
  nm <> EmptyString ->
  ns <> [] ->
  Forall within_digit_limit ns ->
  parse_builtin_song (format_song nm ns) = inr (mkSong nm ns).
Proof.
  intros Hcolon Hstrip Hnm Hns Hlim.
  unfold parse_builtin_song, format_song.
  change (":" ++ String.concat "," (map py_str_int ns))%string
    with (String ":"%char (String.concat "," (map py_str_int ns))).
  rewrite (py_partition_found nm _ Hcolon).
  assert (Hall : Forall (fun item => string_forall decimal_char item = true)
                        (map py_str_int ns)).
  { apply Forall_forall. intros item Hin. apply in_map_iff in Hin.
    destruct Hin as [n [<- _]]. apply py_str_int_decimal. }
  assert (Hmap : map py_str_int ns <> []) by (destruct ns; [congruence|discriminate]).
  assert (Hbody : is_empty (String.concat "," (map py_str_int ns)) = false).
  { destruct ns as [|n [|m l]]; [congruence| |]; cbn [map String.concat].
    - apply py_str_int_decimal.
    - pose proof (proj2 (py_str_int_decimal n)) as He.
      destruct (py_str_int n); [discriminate|reflexivity]. }
  rewrite Hbody, (py_split_concat _ Hmap Hall), (parse_notes_of_texts ns Hlim).
  destruct ns as [|n l]; [congruence|].
  rewrite Hstrip. destruct nm; [congruence|reflexivity].
Qed.

Lemma inline_song_round_trip_witness :
  parse_builtin_song "Ode:64,64,65,67,-1"
  = inr (mkSong "Ode" [64; 64; 65; 67; -1]).
Proof.
  apply (inline_song_round_trip "Ode" [64; 64; 65; 67; -1]);
    try reflexivity; try discriminate.
  repeat constructor; unfold within_digit_limit; vm_compute; reflexivity.
Defined.

(** X9: an inline song text without a colon, or with nothing after its first
    colon, is rejected as not looking like [name:60,62,64]. *)
Theorem song_text_without_body_is_rejected (nm : string) :
  contains ":"%char nm = false ->
  parse_builtin_song nm
  = inl (ArgumentTypeError "Builtin song must look like name:60,62,64") /\
  parse_builtin_song (nm ++ ":")
  = inl (ArgumentTypeError "Builtin song must look like name:60,62,64").
Proof.
  intros H. unfold parse_builtin_song. split.
  - rewrite (py_partition_absent nm H). reflexivity.
  - change (nm ++ ":")%string with (nm ++ String ":"%char EmptyString)%string.
    rewrite (py_partition_found nm _ H). reflexivity.
Qed.

Lemma song_text_without_body_is_rejected_witness :
  parse_builtin_song "60,62,64"
  = inl (ArgumentTypeError "Builtin song must look like name:60,62,64").
Proof.
  apply (song_text_without_body_is_rejected "60,62,64"). reflexivity.
Defined.

(** * Further properties of MIDI files *)

Lemma sort_by_key_sorted_id (l : list (Z * Z)) :
  StronglySorted key_le l -> sort_by_key l = l.
Proof.
  induction 1 as [|x l Hs IH Hall]; cbn [sort_by_key]; [reflexivity|].
  rewrite IH. destruct l as [|y l]; [reflexivity|].
  cbn [insert_by_key]. inversion Hall as [|? ? Hxy _]; subst.
  unfold key_le in Hxy. rewrite (proj2 (Z.leb_le _ _) Hxy). reflexivity.
Qed.

Lemma track_items_cons (start : Z) (m : Message) (rest : list Message) :
  track_items start (m :: rest)
  = if playable m
    then (start + msg_time m, msg_note m) :: track_items (start + msg_time m) rest
    else track_items (start + msg_time m) rest.
Proof.
  unfold track_items. cbn [absolute_times filter snd].
  destruct (playable m); reflexivity.
Qed.

Lemma track_items_notes (track : list Message) : forall start : Z,
  map snd (track_items start track) = map msg_note (filter playable track).
Proof.
  induction track as [|m rest IH]; intros start; [reflexivity|].
  rewrite track_items_cons. cbn [filter].
  destruct (playable m); cbn [map snd]; rewrite IH; reflexivity.
Qed.

Lemma track_items_from (track : list Message) : forall start : Z,
  Forall (fun m => 0 <= msg_time m) track ->
  Forall (fun item => start <= fst item) (track_items start track).
Proof.
  induction track as [|m rest IH]; intros start Hall; [constructor|].
  inversion Hall as [|? ? Hm Hrest]; subst.
  rewrite track_items_cons.
  assert (Hlater : Forall (fun item => start <= fst item)
                          (track_items (start + msg_time m) rest)).
  { eapply Forall_impl; [|apply (IH (start + msg_time m) Hrest)].
    cbv beta. intros item Hi. lia. }
  destruct (playable m); [|exact Hlater].
  constructor; [cbn; lia|exact Hlater].
Qed.

Lemma track_items_sorted (track : list Message) : forall start : Z,
  Forall (fun m => 0 <= msg_time m) track ->
  StronglySorted key_le (track_items start track).
Proof.
  induction track as [|m rest IH]; intros start Hall; [constructor|].
  inversion Hall as [|? ? Hm Hrest]; subst.
  rewrite track_items_cons.
  destruct (playable m); [|apply IH; exact Hrest].
  constructor; [apply IH; exact Hrest|].
  apply (track_items_from rest (start + msg_time m) Hrest).
Qed.

Lemma timed_notes_cons (track : list Message) (trs : list (list Message)) :
  timed_notes (mkMidiFile (track :: trs))
  = track_items 0 track ++ timed_notes (mkMidiFile trs).
Proof. reflexivity. Qed.

Lemma load_midi_notes_sorted (midi : MidiFile) :
  load_midi_notes midi = map snd (sort_by_key (timed_notes midi)).
Proof.
  destruct midi as [trs]. unfold load_midi_notes. cbn [tracks].
  rewrite visit_tracks. reflexivity.
Qed.

(** X10: the notes of a file with a single track whose delta times are not
    negative come out in the order of the file: the note numbers of its
    note-on messages of positive velocity, one after the other. *)
Theorem one_track_in_file_order (track : list Message) :
  Forall (fun m => 0 <= msg_time m) track ->
  load_midi_notes (mkMidiFile [track]) = map msg_note (filter playable track).
Proof.
  intros Hall. rewrite load_midi_notes_sorted, timed_notes_cons.
  change (timed_notes (mkMidiFile [])) with (@nil (Z * Z)). rewrite app_nil_r.
  rewrite (sort_by_key_sorted_id _ (track_items_sorted track 0 Hall)).
  apply track_items_notes.
Qed.

Lemma one_track_in_file_order_witness :
  load_midi_notes
    (mkMidiFile [[mkMessage "note_on" 0 64 80; mkMessage "note_off" 5 64 0;
                  mkMessage "note_on" 0 62 80; mkMessage "note_on" 5 62 0;
                  mkMessage "note_on" 0 60 80]])
  = [64; 62; 60].
Proof.
  apply (one_track_in_file_order
           [mkMessage "note_on" 0 64 80; mkMessage "note_off" 5 64 0;
            mkMessage "note_on" 0 62 80; mkMessage "note_on" 5 62 0;
            mkMessage "note_on" 0 60 80]).
  repeat constructor; cbn; lia.
Defined.

Lemma track_items_length (track : list Message) : forall start : Z,
  List.length (track_items start track) = List.length (filter playable track).
Proof.
  intros start. rewrite <- (length_map snd), track_items_notes, length_map.
  reflexivity.
Qed.

Lemma timed_notes_length (trs : list (list Message)) :
  List.length (timed_notes (mkMidiFile trs))
  = List.length (filter playable (List.concat trs)).
Proof.
  induction trs as [|track rest IH]; [reflexivity|].
  rewrite timed_notes_cons. cbn [List.concat].
  rewrite filter_app, !length_app, IH, track_items_length. reflexivity.
Qed.

Lemma filter_nil_iff {A} (f : A -> bool) (l : list A) :
  filter f l = [] <-> Forall (fun x => f x = false) l.
Proof.
  induction l as [|x l IH]; cbn [filter].
  - split; [constructor|reflexivity].
  - destruct (f x) eqn:E.
    + split; [discriminate|]. intros H. inversion H; congruence.
    + rewrite IH. split; [intros H; constructor; assumption|].
      intros H. inversion H; assumption.
Qed.

(** X11: a MIDI file gives as many notes as its tracks hold [note_on]
    messages of velocity above 0; it gives none, the case in which
    [collect_songs] raises, exactly when no message of any track is a
    [note_on] of velocity above 0. *)
Theorem midi_note_count (midi : MidiFile) :
  List.length (load_midi_notes midi)
  = List.length (filter is_sounding (List.concat (tracks midi))) /\
  (load_midi_notes midi = [] <->
   forall track m, In track (tracks midi) -> In m track ->
                   ~ (msg_type m = "note_on"%string /\ 0 < msg_velocity m)).
Proof.
  assert (Hlen : List.length (load_midi_notes midi)
                 = List.length (filter is_sounding (List.concat (tracks midi)))).
  { rewrite load_midi_notes_sorted, length_map.
    rewrite (Permutation_length (sort_by_key_perm _)).
    rewrite (filter_ext is_sounding playable
               (fun m => eq_sym (playable_is_sounding m))).
    destruct midi as [trs]. apply timed_notes_length. }
  split; [exact Hlen|].
  assert (Hnil : load_midi_notes midi = [] <->
                 Forall (fun m => is_sounding m = false) (List.concat (tracks midi))).
  { rewrite <- filter_nil_iff. split; intros H.
    - apply length_zero_iff_nil. rewrite <- Hlen, H. reflexivity.
    - apply length_zero_iff_nil. rewrite Hlen, H. reflexivity. }
  rewrite Hnil, Forall_forall. split.
  - intros H track m Htrack Hm Hs.
    assert (Hin : In m (List.concat (tracks midi)))
      by (apply in_concat; exists track; split; assumption).
    apply is_sounding_iff in Hs. rewrite (H m Hin) in Hs. discriminate.
  - intros H m Hin. apply in_concat in Hin. destruct Hin as [track [Htrack Hm]].
    destruct (is_sounding m) eqn:E; [|reflexivity].
    exfalso. apply (H track m Htrack Hm). apply is_sounding_iff. exact E.
Qed.

Lemma midi_note_count_witness :
  List.length (load_midi_notes filter_midi) = 1%nat /\
  load_midi_notes silent_midi = [].
Proof.
  split.
  - rewrite (proj1 (midi_note_count filter_midi)). reflexivity.
  - apply (midi_note_count silent_midi).
    intros track m [<-|[]] [<-|[<-|[]]] [_ H]; cbn in H; lia.
Defined.

(** * Further properties of the song list *)

Section CollectSongs.

Variable mido_MidiFile : string -> exn + MidiFile.
Variable Path_name : string -> string.
Variable Path_str : string -> string.

Lemma collect_midi_good (midi_args : list string) : forall (midis : list MidiFile)
    (songs0 : list Song),
  Forall2 (fun path midi => mido_MidiFile path = inr midi /\ load_midi_notes midi <> [])
          midi_args midis ->
  collect_midi mido_MidiFile Path_name Path_str midi_args songs0
  = inr (songs0 ++ map (fun pm => midi_song Path_name (fst pm) (snd pm))
                       (combine midi_args midis)).
Proof.
  induction midi_args as [|path rest IH]; intros midis songs0 H;
    inversion H as [|? midi ? midis' [Hm Hn] Hrest]; subst; cbn [collect_midi combine map].
  - rewrite app_nil_r. reflexivity.
  - rewrite Hm. destruct (load_midi_notes midi) as [|n ns] eqn:Hload; [congruence|].
    rewrite (IH midis' _ Hrest). rewrite <- app_assoc. cbn [app fst snd].
    unfold midi_song at 2. rewrite Hload. reflexivity.
Qed.


(** X12: when every MIDI file decodes and has a playable note, [collect_songs]
    gives the two built-in songs first, then the given songs in their order,
    then one song per MIDI file in the order given, named [MIDI:] and the
    file's name, with the notes of the file. *)
Theorem collect_songs_in_order (midi_args : list string) (midis : list MidiFile)
    (extra_songs : list Song) :
  Forall2 (fun path midi => mido_MidiFile path = inr midi /\ load_midi_notes midi <> [])
          midi_args midis ->
  collect_songs mido_MidiFile Path_name Path_str midi_args extra_songs
  = inr (build_default_songs ++ extra_songs
         ++ map (fun pm => midi_song Path_name (fst pm) (snd pm))
                (combine midi_args midis)).
Proof.
  intros H. unfold collect_songs.
  rewrite (collect_midi_good midi_args midis _ H), <- app_assoc. reflexivity.
Qed.

(** X13: [collect_songs] stops at the first MIDI file that does not decode or
    has no playable note, and raises what that file gives: the decoder's
    exception, or [ValueError] with the path of the file; the files after it
    are not looked at and no list is returned. *)
Theorem collect_songs_first_failure (good : list string) (midis : list MidiFile)
    (bad : string) (rest : list string) (extra_songs : list Song) (e : exn) :
  Forall2 (fun path midi => mido_MidiFile path = inr midi /\ load_midi_notes midi <> [])
          good midis ->
  midi_failure mido_MidiFile Path_str bad = Some e ->
  collect_songs mido_MidiFile Path_name Path_str (good ++ bad :: rest) extra_songs
  = inl e.
Proof.
  intros Hgood Hbad. unfold collect_songs.
  generalize (build_default_songs ++ extra_songs).
  induction Hgood as [|path midi good' midis' [Hm Hn] _ IH]; intros songs0;
    cbn [app collect_midi].
  - unfold midi_failure in Hbad.
    destruct (mido_MidiFile bad) as [e'|midi]; [congruence|].
    destruct (load_midi_notes midi); [congruence|discriminate].
  - rewrite Hm. destruct (load_midi_notes midi) as [|n ns]; [congruence|]. apply IH.
Qed.

End CollectSongs.

Lemma collect_songs_in_order_witness :
  collect_songs demo_files (fun p => p) (fun p => p) ["a.mid"; "b.mid"]%string
    [mkSong "mine" [72]]
  = inr (build_default_songs
         ++ [mkSong "mine" [72]; mkSong "MIDI:a.mid" [60; 62; 48; 50];
             mkSong "MIDI:b.mid" [60; 62; 48; 50]]).
Proof.
  apply (collect_songs_in_order demo_files (fun p => p) (fun p => p)
           ["a.mid"; "b.mid"]%string [demo_midi; demo_midi] [mkSong "mine" [72]]).
  repeat constructor; discriminate.
Defined.

Lemma collect_songs_first_failure_witness :
  collect_songs demo_files (fun p => p) (fun p => p)
    ["a.mid"; "silent.mid"; "b.mid"]%string []
  = inl (ValueError "No playable notes in MIDI file: silent.mid").
Proof.
  apply (collect_songs_first_failure demo_files (fun p => p) (fun p => p)
           ["a.mid"%string] [demo_midi] "silent.mid" ["b.mid"%string] []).
  - repeat constructor; discriminate.
  - reflexivity.
Defined.

(** * From the command line to the notes *)




(** * Further properties of presses on several threads *)

Lemma exec_shape {A : Type} (m : M A) (k : A -> pc) (w : world) (tid : nat) (p0 : pc) :
  critical p0 = true ->
  (forall a, critical (k a) = true) ->
  (forall a, (steps_left (k a) < steps_left p0)%nat) ->
  (0 < steps_left p0)%nat ->
  exists p',
    w_threads (exec m k w tid) = set_nth tid p' (w_threads w) /\
    w_clock (exec m k w tid) = w_clock w /\
    (steps_left p' < steps_left p0)%nat /\
    lock_move tid p0 p' (w_lock w) (w_lock (exec m k w tid)).
Proof.
  intros Hc Hk Hlt Hpos. unfold exec.
  destruct (m (w_singer w)) as [a s1|e s1].
  - exists (k a). split; [reflexivity|]. split; [reflexivity|]. split; [apply Hlt|].
    apply StayIn; [exact Hc|apply Hk|reflexivity].
  - exists (Raised e). split; [reflexivity|]. split; [reflexivity|]. split; [exact Hpos|].
    apply Leave; [exact Hc|reflexivity|reflexivity].
Qed.

(** What every step does to the threads and the lock. *)
Lemma step_shape (w w' : world) (tid : nat) (t : Q) :
  step w tid t = Some w' ->
  exists p0 p',
    nth_error (w_threads w) tid = Some p0 /\
    w_threads w' = set_nth tid p' (w_threads w) /\
    (steps_left p' < steps_left p0)%nat /\
    lock_move tid p0 p' (w_lock w) (w_lock w').
Proof.
  unfold step. intros Hstep.
  destruct (nth_error (w_threads w) tid) as [p|] eqn:H0; [|discriminate].
  exists p.
  destruct p as [|now|now|now| |song note|note|r|l|l| |e].
  - destruct (Qle_bool (w_clock w) t); [|discriminate]. injection Hstep as <-.
    exists (AtLock t). split; [reflexivity|]. split; [reflexivity|].
    split; [cbn; lia|]. apply StayOut; reflexivity.
  - destruct (w_lock w) eqn:Hfree; [discriminate|]. injection Hstep as <-.
    exists (AtGate now). split; [reflexivity|]. split; [reflexivity|].
    split; [cbn; lia|]. apply Enter; reflexivity.
  - injection Hstep as <-.
    destruct (exec_shape (gate_closed now)
                (fun closed : bool => if closed then AtUnlock None else AtSetLast now)
                w tid (AtGate now)) as [p' [H1 [_ [H2 H3]]]];
      [reflexivity|intros [|]; reflexivity|intros [|]; cbn; lia|cbn; lia|].
    exists p'. split; [reflexivity|]. split; [exact H1|]. split; assumption.
  - injection Hstep as <-.
    destruct (exec_shape (set_last_trigger now) (fun _ => AtReadNote)
                w tid (AtSetLast now)) as [p' [H1 [_ [H2 H3]]]];
      [reflexivity|intros a; reflexivity|intros a; cbn; lia|cbn; lia|].
    exists p'. split; [reflexivity|]. split; [exact H1|]. split; assumption.
  - injection Hstep as <-.
    destruct (exec_shape read_note (fun sn => AtAdvance (fst sn) (snd sn))
                w tid AtReadNote) as [p' [H1 [_ [H2 H3]]]];
      [reflexivity|intros a; reflexivity|intros a; cbn; lia|cbn; lia|].
    exists p'. split; [reflexivity|]. split; [exact H1|]. split; assumption.
  - injection Hstep as <-.
    destruct (exec_shape (advance_index song) (fun _ => AtPosition note)
                w tid (AtAdvance song note)) as [p' [H1 [_ [H2 H3]]]];
      [reflexivity|intros a; reflexivity|intros a; cbn; lia|cbn; lia|].
    exists p'. split; [reflexivity|]. split; [exact H1|]. split; assumption.
  - injection Hstep as <-.
    destruct (exec_shape (position note) (fun l => AtUnlock (Some l))
                w tid (AtPosition note)) as [p' [H1 [_ [H2 H3]]]];
      [reflexivity|intros a; reflexivity|intros a; cbn; lia|cbn; lia|].
    exists p'. split; [reflexivity|]. split; [exact H1|]. split; assumption.
  - injection Hstep as <-.
    exists (match r with None => Returned | Some l => AtSpawn l end).
    split; [reflexivity|]. split; [reflexivity|].
    split; [destruct r; cbn; lia|].
    apply Leave; [reflexivity|destruct r; reflexivity|reflexivity].
  - injection Hstep as <-. exists (AtPrint l).
    split; [reflexivity|]. split; [reflexivity|]. split; [cbn; lia|].
    apply StayOut; reflexivity.
  - injection Hstep as <-. exists Returned.
    split; [reflexivity|]. split; [reflexivity|]. split; [cbn; lia|].
    apply StayOut; reflexivity.
  - discriminate.
  - discriminate.
Qed.

Lemma step_lock_inv (w w' : world) (tid : nat) (t : Q) :
  lock_inv w -> step w tid t = Some w' -> lock_inv w'.
Proof.
  intros [Hcrit Hheld] Hstep.
  destruct (step_shape w w' tid t Hstep) as [p0 [p' [H0 [Hths [_ Hmove]]]]].
  pose proof (Hcrit tid p0 H0) as Htid.
  assert (Hmine : critical p' = true <-> w_lock w' = Some tid).
  { destruct Hmove as [H1 H2 H3|H1 H2 H3 H4|H1 H2 H3|H1 H2 H3].
    - rewrite H2, H3, <- Htid, H1. reflexivity.
    - rewrite H2, H4. split; reflexivity.
    - rewrite H2, H3, <- Htid, H1. reflexivity.
    - rewrite H2, H3. split; discriminate. }
  assert (Hothers : forall h, h <> tid -> (w_lock w' = Some h <-> w_lock w = Some h)).
  { intros h Hh. destruct Hmove as [H1 H2 H3|H1 H2 H3 H4|H1 H2 H3|H1 H2 H3].
    - rewrite H3. reflexivity.
    - rewrite H3, H4. split; congruence.
    - rewrite H3. reflexivity.
    - rewrite H3. pose proof (proj1 Htid H1) as E. rewrite E. split; congruence. }
  split.
  - rewrite Hths.
    apply (critical_after_step _ (w_lock w) (w_lock w') tid p0 p' Hcrit H0 Hmine Hothers).
  - intros h Hh. rewrite Hths. destruct (Nat.eq_dec tid h) as [<-|Hne].
    + exists p'. apply (nth_error_set_nth_eq _ _ _ _ H0).
    + rewrite nth_error_set_nth_neq by exact Hne.
      apply Hheld. apply Hothers; [congruence|exact Hh].
Qed.

Lemma start_lock_inv (s0 : KeyboardSinger) (clock0 : Q) (n : nat) :
  lock_inv (start_world s0 clock0 n).
Proof.
  split; cbn.
  - intros tid p Hn. apply nth_error_In, repeat_spec in Hn. subst p.
    cbn. split; discriminate.
  - discriminate.
Qed.

Lemma run_schedule_lock_inv (sched : list (nat * Q)) : forall w w',
  lock_inv w -> run_schedule sched w = Some w' -> lock_inv w'.
Proof.
  induction sched as [|[tid t] rest IH]; intros w w' Hinv Hrun; cbn in Hrun.
  - injection Hrun as <-. exact Hinv.
  - destruct (step w tid t) as [w1|] eqn:Hstep; [|discriminate].
    apply (IH w1 w' (step_lock_inv w w1 tid t Hinv Hstep) Hrun).
Qed.

(** X15: however the presses are scheduled, at most one thread is inside the
    [with self.lock:] block, and it is the thread that holds the lock; this
    does not depend on the songs, so it holds also when a press raises. *)
Theorem one_thread_in_the_block (s0 : KeyboardSinger) (clock0 : Q) (n : nat)
    (sched : list (nat * Q)) (w : world) (t1 t2 : nat) (p1 p2 : pc) :
  run_schedule sched (start_world s0 clock0 n) = Some w ->
  nth_error (w_threads w) t1 = Some p1 -> critical p1 = true ->
  nth_error (w_threads w) t2 = Some p2 -> critical p2 = true ->
  t1 = t2 /\ w_lock w = Some t1.
Proof.
  intros Hrun H1 Hc1 H2 Hc2.
  destruct (run_schedule_lock_inv sched _ w (start_lock_inv s0 clock0 n) Hrun)
    as [Hcrit _].
  pose proof (proj1 (Hcrit t1 p1 H1) Hc1) as E1.
  pose proof (proj1 (Hcrit t2 p2 H2) Hc2) as E2.
  split; [congruence|exact E1].
Qed.

Lemma one_thread_in_the_block_witness :
  w_lock midway_world = Some 1%nat.
Proof.
  apply (one_thread_in_the_block ungated 0 2 midway_schedule midway_world
           1 1 (AtGate 2) (AtGate 2)); reflexivity.
Defined.

(** X16: presses fired together never get stuck: in every world they can
    reach, as long as some thread has not left [handle_press] some thread can
    take a step without the clock moving. *)
Theorem presses_never_deadlock (s0 : KeyboardSinger) (clock0 : Q) (n : nat)
    (sched : list (nat * Q)) (w : world) (tid : nat) (p : pc) :
  run_schedule sched (start_world s0 clock0 n) = Some w ->
  nth_error (w_threads w) tid = Some p ->
  finished p = false ->
  exists tid' w', step w tid' (w_clock w) = Some w'.
Proof.
  intros Hrun Hp Hfin.
  destruct (run_schedule_lock_inv sched _ w (start_lock_inv s0 clock0 n) Hrun)
    as [Hcrit Hheld].
  destruct (w_lock w) as [h|] eqn:Hlock.
  - destruct (Hheld h eq_refl) as [q Hq].
    pose proof (proj2 (Hcrit h q Hq) eq_refl) as Hc.
    exists h. unfold step. rewrite Hq.
    destruct q; try discriminate Hc; eexists; reflexivity.
  - assert (Hout : critical p = false).
    { destruct (critical p) eqn:E; [|reflexivity].
      pose proof (proj1 (Hcrit tid p Hp) E). discriminate. }
    exists tid. unfold step. rewrite Hp.
    destruct p; try discriminate Hout; try discriminate Hfin.
    + assert (Hle : Qle_bool (w_clock w) (w_clock w) = true)
        by (apply Qle_bool_iff; apply Qle_refl).
      rewrite Hle. eexists. reflexivity.
    + rewrite Hlock. eexists. reflexivity.
    + eexists. reflexivity.
    + eexists. reflexivity.
Qed.

Lemma presses_never_deadlock_witness :
  exists tid' w', step midway_world tid' 2 = Some w'.
Proof.
  apply (presses_never_deadlock ungated 0 2 midway_schedule midway_world
           0 (AtLock 1)); reflexivity.
Defined.

Lemma total_left_set_nth (n : nat) (p p' : pc) (l : list pc) :
  nth_error l n = Some p ->
  (total_left (set_nth n p' l) + steps_left p = total_left l + steps_left p')%nat.
Proof.
  intros Hn. destruct (set_nth_split n p' p l Hn) as [l1 [l2 [-> ->]]].
  unfold total_left. rewrite !map_app, !list_sum_app.
  unfold list_sum. cbn [map fold_right]. lia.
Qed.

Lemma step_total_left (w w' : world) (tid : nat) (t : Q) :
  step w tid t = Some w' ->
  (total_left (w_threads w') < total_left (w_threads w))%nat.
Proof.
  intros Hstep.
  destruct (step_shape w w' tid t Hstep) as [p0 [p' [H0 [Hths [Hlt _]]]]].
  rewrite Hths. pose proof (total_left_set_nth tid p0 p' _ H0). lia.
Qed.

(** X17: [n] presses fired together take at most ten steps each, whatever the
    schedule: no schedule runs for more than [10 * n] steps, so with X16 every
    press comes to its end. *)
Theorem presses_end_within_ten_steps_each (s0 : KeyboardSinger) (clock0 : Q) (n : nat)
    (sched : list (nat * Q)) (w : world) :
  run_schedule sched (start_world s0 clock0 n) = Some w ->
  (List.length sched + total_left (w_threads w) <= 10 * n)%nat.
Proof.
  assert (Hstart : total_left (w_threads (start_world s0 clock0 n)) = (10 * n)%nat).
  { cbn [start_world w_threads]. unfold total_left.
    induction n as [|k IH]; [reflexivity|].
    unfold list_sum in *. cbn [repeat map fold_right steps_left].
    rewrite IH. lia. }
  rewrite <- Hstart. generalize (start_world s0 clock0 n).
  induction sched as [|[tid t] rest IH]; intros w0 Hrun; cbn in Hrun.
  - injection Hrun as <-. cbn. lia.
  - destruct (step w0 tid t) as [w1|] eqn:Hstep; [|discriminate].
    pose proof (step_total_left w0 w1 tid t Hstep).
    specialize (IH w1 Hrun). cbn [List.length]. lia.
Qed.

Lemma presses_end_within_ten_steps_each_witness :
  (List.length overtaking_schedule + total_left (w_threads overtaken_world) <= 20)%nat.
Proof.
  apply (presses_end_within_ten_steps_each ungated 0 2 overtaking_schedule
           overtaken_world).
  reflexivity.
Defined.

(** X18: on a singer whose cursor is inside its song, no press of any
    schedule raises inside the [with self.lock:] block: the song and the note
    are always there to be read, so no thread leaves the block by an
    [IndexError].  What follows the block, the playback thread and the
    [print], is not part of this. *)
Theorem no_press_raises_in_the_block (s0 : KeyboardSinger) (clock0 : Q) (n : nat)
    (sched : list (nat * Q)) (w : world) (tid : nat) (e : exn) :
  inv s0 ->
  run_schedule sched (start_world s0 clock0 n) = Some w ->
  nth_error (w_threads w) tid <> Some (Raised e).
Proof.
  intros Hinv Hrun.
  pose proof (run_schedule_reachable s0 n sched _ w
                (reachable_start s0 n clock0 Hinv) Hrun)
    as [_ _ _ Hraise _].
  apply Hraise.
Qed.

Lemma no_press_raises_in_the_block_witness :
  nth_error (w_threads overtaken_world) 0 <> Some (Raised IndexError).
Proof.
  apply (no_press_raises_in_the_block ungated 0 2 overtaking_schedule
           overtaken_world 0 IndexError).
  - split; [cbn; lia|]. exists twinkle. split; [reflexivity|cbn; lia].
  - reflexivity.
Defined.

(** X19: blank items of a note list, as between two commas or after the last
    one, are passed over: the notes read are those of the list without the
    blank item. *)
Theorem blank_items_are_skipped (before after : list string) (item : string) :
  py_strip item = EmptyString ->
  parse_notes (before ++ item :: after) = parse_notes (before ++ after).
Proof.
  intros Hblank. induction before as [|x before IH]; cbn [app parse_notes].
  - rewrite Hblank. reflexivity.
  - rewrite IH. reflexivity.
Qed.

Lemma blank_items_are_skipped_witness :
  parse_notes ["60"; " "; "62"]%string = inr [60; 62].
Proof.
  change (parse_notes (["60"%string] ++ " "%string :: ["62"%string]) = inr [60; 62]).
  rewrite (blank_items_are_skipped ["60"%string] ["62"%string] " "); reflexivity.
Defined.
